(** * pgbalancer: a client-side balancer of postgres nodes with an RPS limiter

    A shallow embedding of [cluster.go] and [node.go] and of the part of
    [golang.org/x/time/rate] that [node.go] calls, followed by the
    properties of the dispatcher that the specification states. *)

From stdpp Require Import gmap strings list fin_maps.
From Stdlib Require Import ZArith Lia.

(** ** Go values *)

(** Go's [int] on the 64-bit targets: [c.nodeLen++] and [c.nodeLen--] wrap. *)
Definition int_wrap (z : Z) : Z := ((z + 2 ^ 63) mod 2 ^ 64 - 2 ^ 63)%Z.

(** Go [error] values as this package builds them: the package-level
    sentinel, an error handed over by [database/sql] or the driver, and the
    wrapper that [fmt.Errorf] returns for a format with [%w]. *)
Inductive error :=
| ErrDuplicateNodeName
| driverError (msg : string)
| wrapError (msg : string) (err : error).

#[global] Instance error_eq_dec : EqDecision error.
Proof. solve_decision. Defined.

(** [err.Error()] *)
Definition Error (e : error) : string :=
  match e with
  | ErrDuplicateNodeName => "node name is already exist"
  | driverError msg => msg
  | wrapError msg _ => msg
  end.

(** [errors.Is(e, target)]: follows the [Unwrap] chain. *)
Fixpoint errors_Is (e target : error) : bool :=
  bool_decide (e = target) ||
  match e with
  | wrapError _ inner => errors_Is inner target
  | _ => false
  end.

(** ** golang.org/x/time/rate

    The limiter that [node.go] imports.  [Limit] is a [float64] number of
    events per second and [tokens] a [float64]; here a time is a number of
    nanoseconds ([time.Duration]'s unit, counted from the zero [time.Time])
    and the bucket is held in units of 10^-9 token, so that
    [tokensFromDuration], which multiplies seconds by the limit, is exact
    (the saturation of [time.Duration] after 292 years is left out).  The
    rounding of the [float64] operations is not part of this model: at the
    very end of a refill interval the library may admit a check a
    nanosecond before this model does.  The properties below use the limiter
    where rounding does not decide: a limit of 0, a bucket that is full, a
    refused check, which leaves the limiter as it was, and checks that keep
    a nanosecond away from the end of a refill interval.
    [Inf] ([math.MaxFloat64]) is not the conversion of any [int], so the
    branch of [reserveN] for it is not reachable from this package. *)
Module rate.
Local Open Scope Z_scope.

Definition second : Z := 1000000000.

Record Limiter := mkLimiter {
  limit : Z;     (* events per second *)
  burst : Z;
  tokens : Z;    (* in 10^-9 token *)
  last : Z       (* the last time the limiter's tokens field was updated *)
}.

#[global] Instance Limiter_eq_dec : EqDecision Limiter.
Proof. solve_decision. Defined.

(** [NewLimiter(r, b)]: the bucket starts full. *)
Definition NewLimiter (r : Z) (b : Z) : Limiter :=
  {| limit := r; burst := b; tokens := b * second; last := 0 |}.

(** [limit.tokensFromDuration(d)] *)
Definition tokensFromDuration (lim d : Z) : Z :=
  if lim <=? 0 then 0 else d * lim.

(** [limit.durationFromTokens(tokens)]; [None] is [InfDuration].  The
    conversion to [time.Duration] truncates to whole nanoseconds. *)
Definition durationFromTokens (lim tok : Z) : option Z :=
  if lim <=? 0 then None else Some (tok ÷ lim).

(** [lim.advance(t)]: the tokens at time [t], state untouched. *)
Definition advance (lim : Limiter) (t : Z) : Z :=
  let last := if t <? last lim then t else last lim in
  let elapsed := t - last in
  let delta := tokensFromDuration (limit lim) elapsed in
  let tokens := tokens lim + delta in
  if burst lim * second <? tokens then burst lim * second else tokens.

(** [lim.reserveN(t, n, maxFutureReserve)] with [maxFutureReserve = 0],
    as [AllowN] calls it; the result is the reservation's [ok]. *)
Definition reserveN (lim : Limiter) (t : Z) (n : Z) : bool * Limiter :=
  if limit lim =? 0 then
    if n <=? burst lim
    then (true, {| limit := limit lim; burst := burst lim - n;
                   tokens := tokens lim; last := last lim |})
    else (false, lim)
  else
    let tokens := advance lim t - n * second in
    let waitDuration :=
      if tokens <? 0 then durationFromTokens (limit lim) (- tokens)
      else Some 0 in
    let ok := (n <=? burst lim) &&
              match waitDuration with Some d => d <=? 0 | None => false end in
    if ok
    then (true, {| limit := limit lim; burst := burst lim;
                   tokens := tokens; last := t |})
    else (false, lim).

(** [lim.Allow()], called when [time.Now()] reads [now]. *)
Definition Allow (lim : Limiter) (now : Z) : bool * Limiter :=
  reserveN lim now 1.
End rate.

(** ** database/sql

    The connection resource is external: what opening, pinging and closing
    the database behind a DSN answer is given by a [driver], [None] for
    [nil] and [Some msg] for an error with that message. *)
Record driver := mkDriver {
  drv_open : string -> option string;
  drv_ping : string -> option string;
  drv_close : string -> option string
}.

(** [*sql.DB], as far as this package looks at it: whether it is closed,
    the limit of idle connections in force ([maxIdleConnsLocked()]) and the
    limit of open connections ([maxOpen], 0 for no limit). *)
Record DB := mkDB {
  db_dsn : string;
  db_closed : bool;
  db_maxIdle : Z;
  db_maxOpen : Z
}.

#[global] Instance DB_eq_dec : EqDecision DB.
Proof. solve_decision. Defined.

(** [db.Close()]: closing twice is allowed and answers [nil] the second time. *)
Definition db_Close (sql : driver) (d : DB) : option error * DB :=
  if db_closed d then (None, d)
  else (driverError <$> drv_close sql (db_dsn d),
        {| db_dsn := db_dsn d; db_closed := true;
           db_maxIdle := db_maxIdle d; db_maxOpen := db_maxOpen d |}).

(** [db.SetMaxIdleConns(n)]: with [n <= 0] no idle connections are
    retained, and the limit is reduced to a positive limit of open
    connections. *)
Definition db_SetMaxIdleConns (n : Z) (d : DB) : DB :=
  let maxIdle := if (0 <? n)%Z then n else 0%Z in
  let maxIdle :=
    if ((0 <? db_maxOpen d) && (db_maxOpen d <? maxIdle))%Z
    then db_maxOpen d else maxIdle in
  {| db_dsn := db_dsn d; db_closed := db_closed d;
     db_maxIdle := maxIdle; db_maxOpen := db_maxOpen d |}.

(** [db.SetMaxOpenConns(n)]: [n < 0] is no limit, as 0 is, and when the
    idle limit is above the new positive limit it is reduced to it, by
    [db.SetMaxIdleConns(n)]. *)
Definition db_SetMaxOpenConns (n : Z) (d : DB) : DB :=
  let maxOpen := if (n <? 0)%Z then 0%Z else n in
  let d := {| db_dsn := db_dsn d; db_closed := db_closed d;
              db_maxIdle := db_maxIdle d; db_maxOpen := maxOpen |} in
  let syncMaxIdle := ((0 <? maxOpen) && (maxOpen <? db_maxIdle d))%Z in
  if syncMaxIdle then db_SetMaxIdleConns n d else d.

(** ** node.go *)

(** [Node]; the [*sql.DB] and the [*rate.Limiter] are reached through the
    node only, so they are held in it. *)
Record Node := mkNode {
  name : string;
  db : DB;
  limiter : rate.Limiter
}.

#[global] Instance Node_eq_dec : EqDecision Node.
Proof. solve_decision. Defined.

(** [n.setLimit(limitRPS)]: a new limiter of burst 1 replaces the old one. *)
Definition setLimit (limitRPS : Z) (n : Node) : Node :=
  let l := limitRPS in
  let limiter := rate.NewLimiter l 1 in
  {| name := name n; db := db n; limiter := limiter |}.

(** The limits that the conversion [rate.Limit(limitRPS)] of [setLimit]
    keeps as they are: a [float64] holds every integer up to 2^53 in
    absolute value; a larger [int] may be rounded to a neighbour. *)
Definition Limit_exact (limitRPS : Z) : Prop :=
  (- 2 ^ 53 <= limitRPS <= 2 ^ 53)%Z.

(** [newNode(name, dsn, limitRPS, maxIdleConn, maxOpenConn)] *)
Definition newNode (sql : driver) (name dsn : string)
    (limitRPS maxIdleConn maxOpenConn : Z) : error + Node :=
  match driverError <$> drv_open sql dsn with
  | Some err => inl (wrapError ("open db: " +:+ Error err) err)
  | None =>
    match driverError <$> drv_ping sql dsn with
    | Some err => inl (wrapError ("ping db: " +:+ Error err) err)
    | None =>
      (* what [sql.Open] returns: two idle connections by default, no
         limit of open connections *)
      let db := {| db_dsn := dsn; db_closed := false;
                   db_maxIdle := 2; db_maxOpen := 0 |} in
      let db := db_SetMaxIdleConns maxIdleConn db in
      let db := db_SetMaxOpenConns maxOpenConn db in
      (* [&Node{db: db, name: name}]: the limiter field is filled in by
         [setLimit] before the node is returned *)
      let n := {| name := name; db := db; limiter := rate.NewLimiter 0 0 |} in
      inr (setLimit limitRPS n)
    end
  end.

(** ** cluster.go *)

(** A [*Node]: an index into the store of allocated nodes. *)
Abbreviation loc := nat.

(** [Cluster].  [nodes] is the [sync.Map] from names to [*Node]; it is only
    ever stored [*Node] values, so the type assertions of the [Range]
    callbacks succeed.  [idleNode] is the channel of capacity 1: its buffer
    is empty or holds one [*Node].  The logger and the mutex carry no state
    of interest: every critical section below is one step. *)
Record Cluster := mkCluster {
  nodes : gmap string loc;
  idleNode : option loc;
  limitRPS : Z;
  maxIdleConn : Z;
  maxOpenConn : Z;
  nodeLen : Z
}.

(** The goroutine started by [go nodeSelector(c)]: it is inside
    [c.nodes.Range] with the entries in [todo] still to visit ([Ranging []]
    is the point where [Range] returns and the [for] calls it again), or it
    is at the send [c.idleNode <- node] for a node the limiter admitted, or
    it has found the buffer full at that send and is parked on the channel
    until a receiver wakes it. *)
Inductive Selector :=
| Ranging (todo : list (string * loc))
| Sending (node : loc) (todo : list (string * loc))
| Parked (node : loc) (todo : list (string * loc)).

#[global] Instance Selector_eq_dec : EqDecision Selector.
Proof. solve_decision. Defined.

(** The program state: the allocated nodes, the cluster and its selector
    goroutine. *)
Record State := mkState {
  heap : list Node;
  cluster : Cluster;
  selector : Selector
}.

Definition with_heap (h : list Node) (s : State) : State :=
  {| heap := h; cluster := cluster s; selector := selector s |}.

Definition with_cluster (c : Cluster) (s : State) : State :=
  {| heap := heap s; cluster := c; selector := selector s |}.

Definition with_selector (g : Selector) (s : State) : State :=
  {| heap := heap s; cluster := cluster s; selector := g |}.

(** [c.nodes.Range(f)] visits the entries present when it is called, each
    once, in an order of the map's choosing.  When the map is changed during
    the walk [sync.Map] may or may not show the change to the walk; not
    showing it is the behaviour taken here. *)
Definition Range (c : Cluster) : list (string * loc) := map_to_list (nodes c).

(** Run a callback that updates the node behind each visited entry. *)
Definition for_each_node (f : Node -> Node) (es : list (string * loc))
    (h : list Node) : list Node :=
  foldl (fun h e => alter f (snd e) h) h es.

(** [NewCluster(limitRPS)] *)
Definition NewCluster (limitRPS : Z) : State :=
  {| heap := [];
     cluster := {| nodes := ∅; idleNode := None; limitRPS := limitRPS;
                   maxIdleConn := 0; maxOpenConn := 0; nodeLen := 0 |};
     selector := Ranging [] |}.

(** [c.SetLimitRPS(limitRPS)] *)
Definition SetLimitRPS (limitRPS : Z) (s : State) : State :=
  let c := cluster s in
  let c := {| nodes := nodes c; idleNode := idleNode c; limitRPS := limitRPS;
              maxIdleConn := maxIdleConn c; maxOpenConn := maxOpenConn c;
              nodeLen := nodeLen c |} in
  {| heap := for_each_node (setLimit limitRPS) (Range c) (heap s);
     cluster := c; selector := selector s |}.

(** [c.Len()] *)
Definition Len (s : State) : Z := nodeLen (cluster s).

(** [c.nodeExists(name)] *)
Definition nodeExists (name : string) (s : State) : bool :=
  bool_decide (is_Some (nodes (cluster s) !! name)).

(** The critical section at the end of [AddNode]: [c.nodeLen++] and
    [c.nodes.Store(name, node)], the node being allocated by [newNode]. *)
Definition store_node (name : string) (node : Node) (s : State) : State :=
  let c := cluster s in
  {| heap := heap s ++ [node];
     cluster := {| nodes := <[name := length (heap s)]> (nodes c);
                   idleNode := idleNode c; limitRPS := limitRPS c;
                   maxIdleConn := maxIdleConn c; maxOpenConn := maxOpenConn c;
                   nodeLen := int_wrap (nodeLen c + 1) |};
     selector := selector s |}.

(** [c.AddNode(name, dsn)] *)
Definition AddNode (sql : driver) (name dsn : string) (s : State)
    : option error * State :=
  if nodeExists name s then
    (Some (wrapError (Error ErrDuplicateNodeName +:+ ": " +:+ name)
                     ErrDuplicateNodeName), s)
  else
    let c := cluster s in
    match newNode sql name dsn (limitRPS c) (maxIdleConn c) (maxOpenConn c) with
    | inl err => (Some (wrapError ("failed to add a node: " +:+ Error err) err), s)
    | inr node => (None, store_node name node s)
    end.

(** The critical section of [RemoveNode]: [c.nodeLen--] and
    [c.nodes.Delete(name)]. *)
Definition delete_node (name : string) (s : State) : State :=
  let c := cluster s in
  with_cluster {| nodes := delete name (nodes c);
                  idleNode := idleNode c; limitRPS := limitRPS c;
                  maxIdleConn := maxIdleConn c; maxOpenConn := maxOpenConn c;
                  nodeLen := int_wrap (nodeLen c - 1) |} s.

(** [c.RemoveNode(name)] *)
Definition RemoveNode (name : string) (s : State) : State :=
  if nodeExists name s then delete_node name s else s.

(** [c.Node()]: the receive [<-c.idleNode].  [None]: the buffer is empty and
    the caller stays blocked.  When the selector is parked at its send, the
    receive takes the node in the buffer, puts the node of the selector in
    its place and wakes the selector, in one step. *)
Definition Cluster_Node (s : State) : option (loc * State) :=
  let c := cluster s in
  match idleNode c with
  | Some n =>
    match selector s with
    | Parked m todo =>
      Some (n, {| heap := heap s;
                  cluster := {| nodes := nodes c; idleNode := Some m;
                                limitRPS := limitRPS c;
                                maxIdleConn := maxIdleConn c;
                                maxOpenConn := maxOpenConn c;
                                nodeLen := nodeLen c |};
                  selector := Ranging todo |})
    | _ =>
      Some (n, with_cluster {| nodes := nodes c; idleNode := None;
                               limitRPS := limitRPS c;
                               maxIdleConn := maxIdleConn c;
                               maxOpenConn := maxOpenConn c;
                               nodeLen := nodeLen c |} s)
    end
  | None => None
  end.

(** The callback of [Close] on one entry: [node.db.Close()], and on a
    failure [returnError] is overwritten. *)
Definition close_entry (sql : driver) (acc : option error * list Node)
    (e : string * loc) : option error * list Node :=
  let '(returnError, h) := acc in
  match h !! snd e with
  | Some node =>
    let '(err, d) := db_Close sql (db node) in
    let h := <[snd e := {| name := name node; db := d; limiter := limiter node |}]> h in
    match err with
    | Some err =>
      (Some (wrapError ("node " +:+ fst e +:+ ": " +:+ Error err) err), h)
    | None => (returnError, h)
    end
  | None => acc
  end.

(** [c.Close()] *)
Definition Close (sql : driver) (s : State) : option error * State :=
  let '(returnError, h) :=
    foldl (close_entry sql) (None, heap s) (Range (cluster s)) in
  (returnError, with_heap h s).

Definition node_SetMaxIdleConns (n : Z) (node : Node) : Node :=
  {| name := name node; db := db_SetMaxIdleConns n (db node);
     limiter := limiter node |}.

Definition node_SetMaxOpenConns (n : Z) (node : Node) : Node :=
  {| name := name node; db := db_SetMaxOpenConns n (db node);
     limiter := limiter node |}.

(** [c.SetMaxIdleConns(n)] *)
Definition SetMaxIdleConns (n : Z) (s : State) : State :=
  let c := cluster s in
  let c := {| nodes := nodes c; idleNode := idleNode c; limitRPS := limitRPS c;
              maxIdleConn := n; maxOpenConn := maxOpenConn c;
              nodeLen := nodeLen c |} in
  {| heap := for_each_node (node_SetMaxIdleConns n) (Range c) (heap s);
     cluster := c; selector := selector s |}.

(** [c.SetMaxOpenConns(n)] *)
Definition SetMaxOpenConns (n : Z) (s : State) : State :=
  let c := cluster s in
  let c := {| nodes := nodes c; idleNode := idleNode c; limitRPS := limitRPS c;
              maxIdleConn := maxIdleConn c; maxOpenConn := n;
              nodeLen := nodeLen c |} in
  {| heap := for_each_node (node_SetMaxOpenConns n) (Range c) (heap s);
     cluster := c; selector := selector s |}.

(** ** The selector goroutine *)

(** What one step of [nodeSelector] does. *)
Inductive action :=
| actRange (entries : nat)        (* the [for] calls [c.nodes.Range] *)
| actAllow (node : loc) (ok : bool)  (* [node.limiter.Allow()] *)
| actSend (node : loc)            (* [c.idleNode <- node] went through *)
| actBlocked (node : loc).        (* the send finds the buffer full *)

#[global] Instance action_eq_dec : EqDecision action.
Proof. solve_decision. Defined.

(** [node.limiter.Allow()] on the node behind [n], the clock reading [now]. *)
Definition node_Allow (now : Z) (n : loc) (h : list Node)
    : bool * list Node :=
  match h !! n with
  | Some node =>
    let '(ok, lim) := rate.Allow (limiter node) now in
    (ok, <[n := {| name := name node; db := db node; limiter := lim |}]> h)
  | None => (false, h)
  end.

(** One step of [nodeSelector(c)], the clock reading [now]. *)
Definition selector_step (now : Z) (s : State) : action * State :=
  match selector s with
  | Ranging [] =>
    let es := Range (cluster s) in
    (actRange (length es), with_selector (Ranging es) s)
  | Ranging ((_, n) :: todo) =>
    let '(ok, h) := node_Allow now n (heap s) in
    (actAllow n ok,
     {| heap := h; cluster := cluster s;
        selector := if ok then Sending n todo else Ranging todo |})
  | Sending n todo =>
    let c := cluster s in
    match idleNode c with
    | None =>
      (actSend n,
       {| heap := heap s;
          cluster := {| nodes := nodes c; idleNode := Some n;
                        limitRPS := limitRPS c; maxIdleConn := maxIdleConn c;
                        maxOpenConn := maxOpenConn c; nodeLen := nodeLen c |};
          selector := Ranging todo |})
    | Some _ => (actBlocked n, with_selector (Parked n todo) s)
    end
  | Parked n todo =>
    (* parked on the channel: a turn of its own finds the buffer as full
       as it was, only a receiver moves the selector on; the buffer is not
       empty here, since the receive that empties it wakes the selector in
       the same step *)
    let c := cluster s in
    match idleNode c with
    | None =>
      (actSend n,
       {| heap := heap s;
          cluster := {| nodes := nodes c; idleNode := Some n;
                        limitRPS := limitRPS c; maxIdleConn := maxIdleConn c;
                        maxOpenConn := maxOpenConn c; nodeLen := nodeLen c |};
          selector := Ranging todo |})
    | Some _ => (actBlocked n, s)
    end
  end.

(** The selector running alone, one step at each of the clock readings. *)
Fixpoint selector_run (clock : list Z) (s : State) : list action * State :=
  match clock with
  | [] => ([], s)
  | now :: clock =>
    let '(a, s) := selector_step now s in
    let '(tr, s) := selector_run clock s in
    (a :: tr, s)
  end.

(** ** Callers running concurrently

    A call of [AddNode] or [RemoveNode] takes the mutex twice: once in
    [nodeExists] and once for the update.  Between the two another
    goroutine may run.  A [thread] is a call at one of these points. *)
Inductive thread :=
| atAddNode (name dsn : string)          (* entered [AddNode] *)
| atNewNode (name dsn : string)          (* [nodeExists] answered false *)
| atStore (name : string) (node : Node)  (* [newNode] succeeded *)
| atRemoveNode (name : string)           (* entered [RemoveNode] *)
| atDelete (name : string)               (* [nodeExists] answered true *)
| returned (err : option error).

Definition thread_step (sql : driver) (t : thread) (s : State)
    : thread * State :=
  match t with
  | atAddNode name dsn =>
    if nodeExists name s
    then (returned (Some (wrapError (Error ErrDuplicateNodeName +:+ ": " +:+ name)
                                    ErrDuplicateNodeName)), s)
    else (atNewNode name dsn, s)
  | atNewNode name dsn =>
    let c := cluster s in
    match newNode sql name dsn (limitRPS c) (maxIdleConn c) (maxOpenConn c) with
    | inl err =>
      (returned (Some (wrapError ("failed to add a node: " +:+ Error err) err)), s)
    | inr node => (atStore name node, s)
    end
  | atStore name node => (returned None, store_node name node s)
  | atRemoveNode name =>
    if nodeExists name s then (atDelete name, s) else (returned None, s)
  | atDelete name => (returned None, delete_node name s)
  | returned err => (returned err, s)
  end.

(** Run the goroutines [ts] under a schedule: each entry names the
    goroutine that takes the next step. *)
Fixpoint run_schedule (sql : driver) (sched : list nat)
    (ts : list thread) (s : State) : list thread * State :=
  match sched with
  | [] => (ts, s)
  | i :: sched =>
    match ts !! i with
    | Some t =>
      let '(t, s) := thread_step sql t s in
      run_schedule sql sched (<[i := t]> ts) s
    | None => run_schedule sql sched ts s
    end
  end.

(** ** Sequences of calls *)

(** A call on the cluster, or a step of the selector. *)
Inductive op :=
| opSetLimitRPS (limitRPS : Z)
| opAddNode (name dsn : string)
| opRemoveNode (name : string)
| opNode
| opClose
| opSetMaxIdleConns (n : Z)
| opSetMaxOpenConns (n : Z)
| opSelector (now : Z).

Definition exec (sql : driver) (o : op) (s : State) : State :=
  match o with
  | opSetLimitRPS r => SetLimitRPS r s
  | opAddNode name dsn => snd (AddNode sql name dsn s)
  | opRemoveNode name => RemoveNode name s
  | opNode => match Cluster_Node s with Some (_, s) => s | None => s end
  | opClose => snd (Close sql s)
  | opSetMaxIdleConns n => SetMaxIdleConns n s
  | opSetMaxOpenConns n => SetMaxOpenConns n s
  | opSelector now => snd (selector_step now s)
  end.

Definition exec_all (sql : driver) (os : list op) (s : State) : State :=
  foldl (fun s o => exec sql o s) s os.

(** The states a program can be in: those reached from [NewCluster] by
    calls that do not overlap and steps of the selector. *)
Definition reachable (sql : driver) (s : State) : Prop :=
  exists limitRPS os, s = exec_all sql os (NewCluster limitRPS).

(** A driver whose databases all open, answer the ping and close. *)
Definition healthy : driver :=
  {| drv_open := fun _ => None; drv_ping := fun _ => None;
     drv_close := fun _ => None |}.


(** ** Observing the gate and the handoff over time *)



(** The selector and the callers of [Node()] on one time line. *)
Inductive who := theSelector | aCaller.

(** Run a time line; the result lists the deliveries of [Node()], each with
    the reading of the clock when the caller received the node. *)
Fixpoint timeline_run (tl : list (Z * who)) (s : State)
    : list (Z * loc) * State :=
  match tl with
  | [] => ([], s)
  | (now, theSelector) :: tl => timeline_run tl (snd (selector_step now s))
  | (now, aCaller) :: tl =>
    match Cluster_Node s with
    | Some (n, s) =>
      let '(ds, s) := timeline_run tl s in ((now, n) :: ds, s)
    | None => timeline_run tl s
    end
  end.






(** A cluster of one node ["a"] limited to [R] requests per second. *)
Definition one_node (R : Z) : State :=
  exec_all healthy [opAddNode "a" "dsn_a"] (NewCluster R).

(** ** Invariants and relations on states *)

(** Every registered name points at an allocated node. *)
Definition wf (s : State) : Prop :=
  forall name l, nodes (cluster s) !! name = Some l -> l < length (heap s).

(** What the callback of [Close] does to the node behind an entry. *)
Definition close_node (sql : driver) (node : Node) : Node :=
  {| name := name node; db := snd (db_Close sql (db node));
     limiter := limiter node |}.

(** Two states with the same cluster, the same selector and the same
    limiter in every node: they differ in the connections at most. *)
Definition same_gates (s1 s2 : State) : Prop :=
  cluster s1 = cluster s2 /\ selector s1 = selector s2 /\
  limiter <$> heap s1 = limiter <$> heap s2.

(** The counter agrees with the size of the map, as an [int]. *)
Definition counted (s : State) : Prop :=
  Len s = int_wrap (Z.of_nat (size (nodes (cluster s)))).

(** No registered node is eligible at [now]: the gate of each refuses. *)
Definition not_eligible (now : Z) (s : State) : Prop :=
  Forall (fun e : string * loc =>
            exists node, heap s !! e.2 = Some node /\
                         (rate.Allow (limiter node) now).1 = false)
         (Range (cluster s)).

(** The actions of one pass over [es] in which every gate refuses. *)
Definition idle_pass (es : list (string * loc)) : list action :=
  actRange (length es) :: map (fun e => actAllow e.2 false) es.

(** A cluster of one node whose only token the selector has just handed
    over at time 0: the selector is back at the head of its loop. *)
Definition one_node_spent : State :=
  (selector_run [0; 0; 0]%Z (one_node 1)).2.

(** The same cluster a second later: the selector has admitted the node
    again, found the buffer still full and is parked at the send. *)
Definition one_node_parked : State :=
  (selector_run [0; 1000000000; 1000000000]%Z one_node_spent).2.

Definition is_SetLimitRPS (o : op) : bool :=
  match o with opSetLimitRPS _ => true | _ => false end.

(** ** query.go

    What the connection answers to a query, and how a [time.Duration]
    prints, belong to [database/sql] and [time]: they are given by a
    [backend].  [Rows] and [Row] stand for [*sql.Rows] and [*sql.Row],
    [Args] for the variadic arguments and [Ctx] for [context.Context]. *)
Record backend (Rows Row Args Ctx : Type) := mkBackend {
  db_Query : DB -> string -> Args -> Rows * option error;
  db_QueryContext : DB -> Ctx -> string -> Args -> Rows * option error;
  db_QueryRow : DB -> string -> Args -> Row;
  db_QueryRowContext : DB -> Ctx -> string -> Args -> Row;
  Duration_String : Z -> string
}.

Arguments db_Query {Rows Row Args Ctx}.
Arguments db_QueryContext {Rows Row Args Ctx}.
Arguments db_QueryRow {Rows Row Args Ctx}.
Arguments db_QueryRowContext {Rows Row Args Ctx}.
Arguments Duration_String {Rows Row Args Ctx}.

(** The line handed to [c.l.Printf]:
    ["node: %s; q: %s; t: %s"] with the node's name, the query and
    [stopTime.Sub(startTime)]. *)
Definition log_line {Rows Row Args Ctx} (be : backend Rows Row Args Ctx)
    (node : Node) (query : string) (startTime stopTime : Z) : string :=
  "node: " +:+ name node +:+ "; q: " +:+ query +:+ "; t: "
  +:+ Duration_String be (stopTime - startTime).

(** [c.Query(query, args...)], the clock reading [startTime] before and
    [stopTime] after the query.  The result is what the caller receives, the
    line that is logged and the state; [None]: the caller is blocked in
    [c.Node()]. *)
Definition Query {Rows Row Args Ctx} (be : backend Rows Row Args Ctx)
    (query : string) (args : Args) (startTime stopTime : Z) (s : State)
    : option ((Rows * option error) * string * State) :=
  match Cluster_Node s with
  | Some (n, s) =>
    match heap s !! n with
    | Some node =>
      let r := db_Query be (db node) query args in
      Some (r, log_line be node query startTime stopTime, s)
    | None => None
    end
  | None => None
  end.

(** [c.QueryContext(ctx, query, args...)] *)
Definition QueryContext {Rows Row Args Ctx} (be : backend Rows Row Args Ctx)
    (ctx : Ctx) (query : string) (args : Args) (startTime stopTime : Z)
    (s : State) : option ((Rows * option error) * string * State) :=
  match Cluster_Node s with
  | Some (n, s) =>
    match heap s !! n with
    | Some node =>
      let r := db_QueryContext be (db node) ctx query args in
      Some (r, log_line be node query startTime stopTime, s)
    | None => None
    end
  | None => None
  end.

(** [c.QueryRow(query, args...)] *)
Definition QueryRow {Rows Row Args Ctx} (be : backend Rows Row Args Ctx)
    (query : string) (args : Args) (startTime stopTime : Z) (s : State)
    : option (Row * string * State) :=
  match Cluster_Node s with
  | Some (n, s) =>
    match heap s !! n with
    | Some node =>
      let r := db_QueryRow be (db node) query args in
      Some (r, log_line be node query startTime stopTime, s)
    | None => None
    end
  | None => None
  end.

(** [c.QueryRowContext(ctx, query, args...)] *)
Definition QueryRowContext {Rows Row Args Ctx}
    (be : backend Rows Row Args Ctx) (ctx : Ctx) (query : string)
    (args : Args) (startTime stopTime : Z) (s : State)
    : option (Row * string * State) :=
  match Cluster_Node s with
  | Some (n, s) =>
    match heap s !! n with
    | Some node =>
      let r := db_QueryRowContext be (db node) ctx query args in
      Some (r, log_line be node query startTime stopTime, s)
    | None => None
    end
  | None => None
  end.

(** A backend for examples: the answer tells which connection was asked
    and whether it was closed; durations print as nothing. *)
Definition echo : backend (string * bool) (string * bool) unit unit :=
  {| db_Query := fun d _ _ => ((db_dsn d, db_closed d), None);
     db_QueryContext := fun d _ _ _ => ((db_dsn d, db_closed d), None);
     db_QueryRow := fun d _ _ => (db_dsn d, db_closed d);
     db_QueryRowContext := fun d _ _ _ => (db_dsn d, db_closed d);
     Duration_String := fun _ => "" |}.

(** ** The selector and the callers, step by step *)

(** What happens at one turn of a time line. *)
Inductive event :=
| evSelector (a : action)   (* the selector takes a step *)
| evDelivered (node : loc)  (* a caller of [Node()] receives a node *)
| evWaiting.                (* a caller of [Node()] finds the buffer empty *)

Fixpoint timeline_events (tl : list (Z * who)) (s : State)
    : list event * State :=
  match tl with
  | [] => ([], s)
  | (now, theSelector) :: tl =>
    let '(a, s) := selector_step now s in
    let '(es, s) := timeline_events tl s in
    (evSelector a :: es, s)
  | (now, aCaller) :: tl =>
    match Cluster_Node s with
    | Some (n, s) =>
      let '(es, s) := timeline_events tl s in (evDelivered n :: es, s)
    | None =>
      let '(es, s) := timeline_events tl s in (evWaiting :: es, s)
    end
  end.

(** The checks that a gate admitted, and the deliveries. *)
Fixpoint admissions (es : list event) : nat :=
  match es with
  | [] => 0
  | evSelector (actAllow _ true) :: es => S (admissions es)
  | _ :: es => admissions es
  end.

Fixpoint deliveries (es : list event) : nat :=
  match es with
  | [] => 0
  | evDelivered _ :: es => S (deliveries es)
  | _ :: es => deliveries es
  end.

(** The admitted nodes on their way to a caller: one in the buffer, one
    with the selector at the send. *)
Definition in_flight (s : State) : nat :=
  (match idleNode (cluster s) with Some _ => 1 | None => 0 end)
  + (match selector s with
     | Sending _ _ | Parked _ _ => 1
     | Ranging _ => 0
     end).

(** The nodes the selector still holds a pointer to. *)
Definition selector_locs (g : Selector) : list loc :=
  match g with
  | Ranging todo => todo.*2
  | Sending n todo | Parked n todo => n :: todo.*2
  end.

(** Every pointer held by the registry, the buffer or the selector points
    at an allocated node. *)
Definition allocated (s : State) : Prop :=
  wf s /\
  (forall n, idleNode (cluster s) = Some n -> n < length (heap s)) /\
  (forall n, n ∈ selector_locs (selector s) -> n < length (heap s)).

(** Every registered node carries the name it is registered under; so no
    two names share a node. *)
Definition named (s : State) : Prop :=
  (forall k l node,
     nodes (cluster s) !! k = Some l -> heap s !! l = Some node ->
     name node = k).

(** Whether closing the connection of a node would fail. *)
Definition close_fails (sql : driver) (node : Node) : option string :=
  if db_closed (db node) then None else drv_close sql (db_dsn (db node)).

(** A driver whose databases open and answer the ping but fail to close. *)
Definition unclosable : driver :=
  {| drv_open := fun _ => None; drv_ping := fun _ => None;
     drv_close := fun dsn => Some ("cannot close " +:+ dsn) |}.

Definition is_SetMaxIdleConns (o : op) : bool :=
  match o with opSetMaxIdleConns _ => true | _ => false end.

Definition is_SetMaxOpenConns (o : op) : bool :=
  match o with opSetMaxOpenConns _ => true | _ => false end.

(** The limiter of a gate after it was asked at each of the clock readings. *)
Fixpoint gate_after (lim : rate.Limiter) (clock : list Z) : rate.Limiter :=
  match clock with
  | [] => lim
  | now :: clock => gate_after (rate.Allow lim now).2 clock
  end.

(** The name that a call in progress works on. *)
Definition thread_name (t : thread) : option string :=
  match t with
  | atAddNode k _ | atNewNode k _ | atStore k _
  | atRemoveNode k | atDelete k => Some k
  | returned _ => None
  end.

(** What a call in progress has found out from [nodeExists] still holds. *)
Definition thread_ok (s : State) (t : thread) : Prop :=
  match t with
  | atNewNode k _ | atStore k _ => nodes (cluster s) !! k = None
  | atDelete k => is_Some (nodes (cluster s) !! k)
  | _ => True
  end.

(** No two of the calls in progress work on the same name. *)
Definition distinct_names (ts : list thread) : Prop :=
  forall i j ti tj k,
    i <> j -> ts !! i = Some ti -> ts !! j = Some tj ->
    thread_name ti = Some k -> thread_name tj <> Some k.

(** ** The rate gate *)

(** C1.  A limit of 0 is handed to the limiter as it is, and a limiter of
    limit 0 admits its burst of one request and nothing after it: the gate
    that [setLimit 0] installs answers [true] once and [false] to every later
    check, whatever the clock reads.  On a cluster created with limit 0 the
    selector offers the node once and from then on finds it not eligible. *)
Theorem zero_limit_admits_once :
  (forall (n : Node) (now : Z),
     exists lim,
       rate.Allow (limiter (setLimit 0 n)) now = (true, lim) /\
       forall later, rate.Allow lim later = (false, lim)) /\
  fst (selector_run [0; 1; 2; 3000000000; 4000000000; 5000000000;
                     6000000000]%Z (one_node 0))
  = [actRange 1; actAllow 0 true; actSend 0;
     actRange 1; actAllow 0 false; actRange 1; actAllow 0 false].
Proof.
  split; [|vm_compute; reflexivity].
  intros n now. eexists. split; [reflexivity|]. intros later. reflexivity.
Qed.

(** C5, the claim as stated fails: a node limited to one request per second
    whose token was taken at time 5 is refused at time 6, and after
    [setLimit 1], the same limit again, it is admitted at time 6. *)
Lemma setLimit_grants_fresh_token :
  let n := {| name := "a";
              db := {| db_dsn := "dsn_a"; db_closed := false;
                       db_maxIdle := 0; db_maxOpen := 0 |};
              limiter := snd (rate.Allow (rate.NewLimiter 1 1) 5) |} in
  rate.tokens (limiter n) = 0%Z /\
  fst (rate.Allow (limiter n) 6) = false /\
  rate.tokens (limiter (setLimit 1 n)) = rate.second /\
  fst (rate.Allow (limiter (setLimit 1 n)) 6) = true.
Proof. vm_compute. repeat split. Qed.

(** C5, amended.  [setLimit] does not keep the token state of the gate: it
    installs a new limiter with the new limit, burst 1 and a full bucket,
    whatever the old limiter held, and leaves the name and the connection
    as they were.  The first check after it is admitted at any clock
    reading and for any limit. *)
Theorem setLimit_replaces_gate (R : Z) (n : Node) (now : Z) :
  limiter (setLimit R n) = rate.NewLimiter R 1 /\
  name (setLimit R n) = name n /\ db (setLimit R n) = db n /\
  fst (rate.Allow (limiter (setLimit R n)) now) = true.
Proof.
  repeat split. cbn [setLimit limiter].
  unfold rate.Allow, rate.reserveN, rate.NewLimiter. cbn [rate.limit rate.burst].
  destruct (Z.eqb_spec R 0) as [->|HR]; [reflexivity|].
  unfold rate.advance, rate.tokensFromDuration, rate.durationFromTokens.
  cbn [rate.limit rate.burst rate.tokens rate.last].
  change (1 <=? 1)%Z with true. cbn [andb].
  set (el := (now - (if (now <? 0)%Z then now else 0%Z))%Z).
  assert (0 <= el)%Z by (unfold el; destruct (Z.ltb_spec now 0); lia).
  set (tok := (if (R <=? 0)%Z then 0 else el * R)%Z).
  assert (0 <= tok)%Z by (unfold tok; destruct (Z.leb_spec R 0); nia).
  change (1 * rate.second)%Z with rate.second.
  destruct (Z.ltb_spec rate.second (rate.second + tok)) as [?|?].
  - rewrite Z.sub_diag. reflexivity.
  - assert (tok = 0)%Z as -> by lia. rewrite Z.add_0_r, Z.sub_diag. reflexivity.
Qed.


Section admissions.
Local Open Scope Z_scope.





End admissions.



(** ** The store of nodes *)

Section store.
Implicit Types (h : list Node) (es : list (string * loc)) (l : loc).

Lemma insert_as_alter (f : Node -> Node) h l node :
  h !! l = Some node -> <[l := f node]> h = alter f l h.
Proof.
  intros Hl. apply list_eq. intros j. destruct (decide (l = j)) as [Heq|Hne]; [subst j|].
  - rewrite list_lookup_insert_eq by (eapply lookup_lt_Some; eauto).
    rewrite list_lookup_alter_eq, Hl. reflexivity.
  - rewrite list_lookup_insert_ne, list_lookup_alter_ne by done. reflexivity.
Qed.

Lemma alter_unallocated (f : Node -> Node) h l :
  h !! l = None -> alter f l h = h.
Proof.
  intros Hl. apply list_eq. intros j. destruct (decide (l = j)) as [Heq|Hne]; [subst j|].
  - rewrite list_lookup_alter_eq, Hl. reflexivity.
  - apply list_lookup_alter_ne. done.
Qed.

Lemma for_each_node_cons f e es h :
  for_each_node f (e :: es) h = for_each_node f es (alter f e.2 h).
Proof. reflexivity. Qed.

Lemma for_each_node_length f es h :
  length (for_each_node f es h) = length h.
Proof.
  revert h. induction es as [|e es IH]; intros h; [reflexivity|].
  rewrite for_each_node_cons, IH. apply length_alter.
Qed.

(** A property that the callback keeps holds after the walk where it
    held before. *)
Lemma for_each_node_keeps (P : Node -> Prop) f es :
  (forall x, P x -> P (f x)) ->
  forall h l node, h !! l = Some node -> P node ->
    exists node', for_each_node f es h !! l = Some node' /\ P node'.
Proof.
  intros Hf. induction es as [|e es IH]; intros h l node Hl HP; [eauto|].
  rewrite for_each_node_cons. destruct (decide (e.2 = l)) as [Heq|Hne]; [subst l|].
  - apply (IH _ _ (f node)); [|auto].
    rewrite list_lookup_alter_eq, Hl. reflexivity.
  - apply (IH _ _ node); [|auto].
    rewrite list_lookup_alter_ne by done. exact Hl.
Qed.

(** A property that the callback establishes holds for every node the
    walk visits. *)
Lemma for_each_node_sets (P : Node -> Prop) f es :
  (forall x, P (f x)) ->
  forall h k l, (k, l) ∈ es -> l < length h ->
    exists node', for_each_node f es h !! l = Some node' /\ P node'.
Proof.
  intros Hf. induction es as [|e es IH]; intros h k l Hin Hlt.
  { by apply elem_of_nil in Hin. }
  rewrite for_each_node_cons.
  apply elem_of_cons in Hin as [Heq|Hin]; [subst e|].
  - destruct (lookup_lt_is_Some_2 h l Hlt) as [node Hnode].
    apply (for_each_node_keeps P f es (fun x _ => Hf x) _ _ (f node)); [|auto].
    cbn [snd]. rewrite list_lookup_alter_eq, Hnode. reflexivity.
  - apply (IH _ k); [done|]. rewrite length_alter. exact Hlt.
Qed.

(** A field that the callback does not touch is the same after the walk. *)
Lemma for_each_node_frame {B} (g : Node -> B) f es h :
  (forall x, g (f x) = g x) ->
  g <$> for_each_node f es h = g <$> h.
Proof.
  intros Hf. revert h. induction es as [|e es IH]; intros h; [reflexivity|].
  rewrite for_each_node_cons, IH. apply list_eq. intros j.
  rewrite !list_lookup_fmap. destruct (decide (e.2 = j)) as [Heq|Hne]; [subst j|].
  - rewrite list_lookup_alter_eq. destruct (h !! e.2); cbn; [|done].
    by rewrite Hf.
  - by rewrite list_lookup_alter_ne.
Qed.

(** The walk of [Close], seen on the store alone. *)
Lemma Close_heap sql es (acc : option error * list Node) :
  snd (foldl (close_entry sql) acc es)
  = for_each_node (close_node sql) es (snd acc).
Proof.
  revert acc. induction es as [|e es IH]; intros [re h]; [reflexivity|].
  cbn [foldl]. rewrite for_each_node_cons, IH. f_equal.
  unfold close_entry. cbn [snd].
  destruct (h !! e.2) as [node|] eqn:Hl.
  - rewrite <- (insert_as_alter (close_node sql) h e.2 node Hl).
    unfold close_node.
    destruct (db_Close sql (db node)) as [[err|] d]; reflexivity.
  - cbn. symmetry. apply alter_unallocated. exact Hl.
Qed.

Lemma Close_state sql s :
  snd (Close sql s)
  = with_heap (for_each_node (close_node sql) (Range (cluster s)) (heap s)) s.
Proof.
  unfold Close.
  pose proof (Close_heap sql (Range (cluster s)) (None, heap s)) as H.
  destruct (foldl (close_entry sql) (None, heap s) (Range (cluster s)))
    as [re h]. cbn in *. by rewrite H.
Qed.
End store.

(** ** The registry under calls that do not overlap *)

Section registry.
Variable sql : driver.

Lemma node_Allow_length now n h : length (node_Allow now n h).2 = length h.
Proof.
  unfold node_Allow. destruct (h !! n) as [node|]; [|reflexivity].
  destruct (rate.Allow (limiter node) now) as [ok lim]. apply length_insert.
Qed.

Lemma selector_step_nodes now s :
  nodes (cluster (selector_step now s).2) = nodes (cluster s).
Proof.
  unfold selector_step. destruct (selector s) as [[|[k n] todo]|n todo|n todo].
  - reflexivity.
  - destruct (node_Allow now n (heap s)). reflexivity.
  - destruct (idleNode (cluster s)); reflexivity.
  - destruct (idleNode (cluster s)); reflexivity.
Qed.

Lemma selector_step_length now s :
  length (heap (selector_step now s).2) = length (heap s).
Proof.
  unfold selector_step. destruct (selector s) as [[|[k n] todo]|n todo|n todo].
  - reflexivity.
  - pose proof (node_Allow_length now n (heap s)) as H.
    destruct (node_Allow now n (heap s)). exact H.
  - destruct (idleNode (cluster s)); reflexivity.
  - destruct (idleNode (cluster s)); reflexivity.
Qed.

Lemma AddNode_cases name dsn s :
  let c := cluster s in
  (is_Some (nodes c !! name) /\
   AddNode sql name dsn s
   = (Some (wrapError (Error ErrDuplicateNodeName +:+ ": " +:+ name)
                      ErrDuplicateNodeName), s)) \/
  (nodes c !! name = None /\
   exists err, newNode sql name dsn (limitRPS c) (maxIdleConn c) (maxOpenConn c)
               = inl err /\
     AddNode sql name dsn s
     = (Some (wrapError ("failed to add a node: " +:+ Error err) err), s)) \/
  (nodes c !! name = None /\
   exists node, newNode sql name dsn (limitRPS c) (maxIdleConn c) (maxOpenConn c)
                = inr node /\
     AddNode sql name dsn s = (None, store_node name node s)).
Proof.
  intros c. unfold AddNode, nodeExists. fold c. case_bool_decide as Hex.
  - left. split; [exact Hex|reflexivity].
  - right. assert (nodes c !! name = None) as Hnone.
    { destruct (nodes c !! name) eqn:E; [|reflexivity].
      exfalso. apply Hex. eauto. }
    destruct (newNode sql name dsn (limitRPS c) (maxIdleConn c) (maxOpenConn c))
      as [err|node] eqn:Hnew; [left|right]; eauto.
Qed.

Lemma wf_store_node name node s : wf s -> wf (store_node name node s).
Proof.
  intros Hwf k l. unfold store_node. cbn [cluster nodes heap].
  rewrite length_app. cbn [length].
  destruct (decide (name = k)) as [Heq|Hne]; [subst k|].
  - rewrite lookup_insert_eq. intros [= <-]. lia.
  - rewrite lookup_insert_ne by done. intros Hl. apply Hwf in Hl. lia.
Qed.

Lemma wf_exec o s : wf s -> wf (exec sql o s).
Proof.
  intros Hwf. destruct o as [r|name dsn|name| | |n|n|now]; cbn [exec].
  - intros k l. cbn. rewrite for_each_node_length. apply Hwf.
  - destruct (AddNode_cases name dsn s) as [[_ ->]|[(_ & e & _ & ->)|(_ & x & _ & ->)]];
      [exact Hwf..|]. apply wf_store_node, Hwf.
  - unfold RemoveNode. destruct (nodeExists name s); [|exact Hwf].
    intros k l. cbn. intros Hl. apply lookup_delete_Some in Hl as [_ Hl].
    by apply Hwf in Hl.
  - unfold Cluster_Node.
    destruct (idleNode (cluster s)), (selector s); exact Hwf.
  - rewrite Close_state. intros k l. cbn. rewrite for_each_node_length.
    apply Hwf.
  - intros k l. cbn. rewrite for_each_node_length. apply Hwf.
  - intros k l. cbn. rewrite for_each_node_length. apply Hwf.
  - intros k l. rewrite selector_step_nodes, selector_step_length. apply Hwf.
Qed.

Lemma wf_exec_all os s : wf s -> wf (exec_all sql os s).
Proof.
  revert s. induction os as [|o os IH]; intros s Hwf; [exact Hwf|].
  apply IH, wf_exec, Hwf.
Qed.

Lemma wf_reachable s : reachable sql s -> wf s.
Proof.
  intros (r & os & ->). apply wf_exec_all. intros k l. cbn.
  rewrite lookup_empty. discriminate.
Qed.

Lemma int_wrap_succ z : int_wrap (int_wrap z + 1) = int_wrap (z + 1).
Proof.
  unfold int_wrap.
  replace ((z + 2 ^ 63) mod 2 ^ 64 - 2 ^ 63 + 1 + 2 ^ 63)%Z
    with ((z + 2 ^ 63) mod 2 ^ 64 + 1)%Z by lia.
  rewrite Zplus_mod_idemp_l. f_equal. f_equal. lia.
Qed.

Lemma int_wrap_pred z : int_wrap (int_wrap z - 1) = int_wrap (z - 1).
Proof.
  unfold int_wrap.
  replace ((z + 2 ^ 63) mod 2 ^ 64 - 2 ^ 63 - 1 + 2 ^ 63)%Z
    with ((z + 2 ^ 63) mod 2 ^ 64 + (- 1))%Z by lia.
  rewrite Zplus_mod_idemp_l. f_equal. f_equal. lia.
Qed.


(** The counter follows the map as long as no two calls overlap. *)
Lemma counted_exec o s : counted s -> counted (exec sql o s).
Proof.
  unfold counted, Len. intros Hc.
  destruct o as [r|name dsn|name| | |n|n|now]; cbn [exec].
  - exact Hc.
  - destruct (AddNode_cases name dsn s)
      as [[_ ->]|[(_ & e & _ & ->)|(Hnone & x & _ & ->)]]; [exact Hc..|].
    cbn. rewrite Hc, int_wrap_succ, map_size_insert_None by exact Hnone.
    f_equal. lia.
  - unfold RemoveNode, nodeExists. case_bool_decide as Hex; [|exact Hc].
    cbn. rewrite Hc, int_wrap_pred, map_size_delete_Some by exact Hex.
    f_equal. destruct Hex as [l Hl].
    assert (size (nodes (cluster s)) <> 0%nat).
    { apply map_size_non_empty_iff. intros He. rewrite He in Hl.
      by rewrite lookup_empty in Hl. }
    lia.
  - unfold Cluster_Node.
    destruct (idleNode (cluster s)), (selector s); exact Hc.
  - rewrite Close_state. exact Hc.
  - exact Hc.
  - exact Hc.
  - rewrite selector_step_nodes.
    unfold selector_step. destruct (selector s) as [[|[k n'] todo]|n' todo|n' todo].
    + exact Hc.
    + destruct (node_Allow now n' (heap s)). exact Hc.
    + destruct (idleNode (cluster s)); exact Hc.
    + destruct (idleNode (cluster s)); exact Hc.
Qed.

Lemma counted_reachable s : reachable sql s -> counted s.
Proof.
  intros (r & os & ->). generalize (NewCluster r), (eq_refl : counted (NewCluster r)).
  induction os as [|o os IH]; intros s Hc; [exact Hc|].
  apply IH, counted_exec, Hc.
Qed.
End registry.

(** ** Adding and removing nodes *)

Lemma newNode_error sql name dsn r i o err :
  newNode sql name dsn r i o = inl err ->
  exists prefix msg,
    err = wrapError (prefix +:+ msg) (driverError msg) /\
    (drv_open sql dsn = Some msg \/
     drv_open sql dsn = None /\ drv_ping sql dsn = Some msg).
Proof.
  unfold newNode. destruct (drv_open sql dsn) as [m|] eqn:Ho; cbn.
  - intros [= <-]. exists "open db: ", m. eauto.
  - destruct (drv_ping sql dsn) as [m|] eqn:Hp; cbn; [|discriminate].
    intros [= <-]. exists "ping db: ", m. eauto.
Qed.

Lemma newNode_ok sql name dsn r i o node :
  newNode sql name dsn r i o = inr node ->
  drv_open sql dsn = None /\ drv_ping sql dsn = None /\
  limiter node = rate.NewLimiter r 1.
Proof.
  unfold newNode. destruct (drv_open sql dsn); cbn; [discriminate|].
  destruct (drv_ping sql dsn); cbn; [discriminate|]. intros [= <-]. auto.
Qed.

(** C3.  [AddNode] answers the duplicate-name error exactly when the name
    is registered.  When the name is free and opening or pinging the
    database fails, it answers an error that wraps the failure of the
    driver.  It answers [nil] exactly when the name is free and both
    succeed.  Whenever it answers an error the state is the one before the
    call: the registry, the counter and the store of nodes are unchanged. *)
Theorem AddNode_failures (sql : driver) (name dsn : string) (s : State) :
  let err := fst (AddNode sql name dsn s) in
  let s' := snd (AddNode sql name dsn s) in
  ((exists e, err = Some e /\ errors_Is e ErrDuplicateNodeName = true)
   <-> is_Some (nodes (cluster s) !! name)) /\
  (forall msg,
     nodes (cluster s) !! name = None ->
     drv_open sql dsn = Some msg \/
     drv_open sql dsn = None /\ drv_ping sql dsn = Some msg ->
     exists e, err = Some e /\ errors_Is e (driverError msg) = true) /\
  (err = None <->
   nodes (cluster s) !! name = None /\
   drv_open sql dsn = None /\ drv_ping sql dsn = None) /\
  (err <> None ->
   s' = s /\ nodes (cluster s') = nodes (cluster s) /\ Len s' = Len s /\
   nodes (cluster s') !! name = nodes (cluster s) !! name).
Proof.
  cbn zeta.
  destruct (AddNode_cases sql name dsn s)
    as [[Hex ->]|[(Hnone & e & Hnew & ->)|(Hnone & node & Hnew & ->)]];
    cbn [fst snd].
  - split; [|split; [|split]].
    + split; [intros _; exact Hex|]. intros _. eexists. split; reflexivity.
    + intros msg Hn. destruct Hex as [l Hl]. congruence.
    + split; [discriminate|]. intros [Hn _]. destruct Hex as [l Hl]. congruence.
    + auto.
  - apply newNode_error in Hnew as (prefix & m & -> & Hdrv).
    split; [|split; [|split]].
    + split.
      * intros (e & [= <-] & He). cbn in He. discriminate.
      * rewrite Hnone. intros [l Hl]. discriminate.
    + intros msg _ Hmsg. eexists. split; [reflexivity|].
      assert (m = msg) as -> by (destruct Hdrv as [?|[? ?]], Hmsg as [?|[? ?]];
                                   congruence).
      cbn [errors_Is].
      rewrite (bool_decide_eq_true_2 (driverError msg = driverError msg))
        by reflexivity.
      cbn [orb]. rewrite !orb_true_r. reflexivity.
    + split; [discriminate|]. intros (_ & Ho & Hp).
      destruct Hdrv as [?|[? ?]]; congruence.
    + auto.
  - apply newNode_ok in Hnew as (Ho & Hp & _).
    split; [|split; [|split]].
    + split.
      * intros (e & [=] & _).
      * rewrite Hnone. intros [l Hl]. discriminate.
    + intros msg _ [?|[_ ?]]; congruence.
    + split; auto.
    + intros H. by destruct H.
Qed.

(** A call that runs alone goes through its points one after the other and
    does what [AddNode] and [RemoveNode] do. *)
Lemma AddNode_alone sql name dsn s :
  run_schedule sql [0; 0; 0] [atAddNode name dsn] s
  = ([returned (AddNode sql name dsn s).1], (AddNode sql name dsn s).2).
Proof.
  unfold AddNode. cbn.
  destruct (nodeExists name s); cbn; [reflexivity|].
  destruct (newNode sql name dsn _ _ _); reflexivity.
Qed.

Lemma RemoveNode_alone sql name s :
  run_schedule sql [0; 0] [atRemoveNode name] s
  = ([returned None], RemoveNode name s).
Proof. unfold RemoveNode. cbn. destruct (nodeExists name s); reflexivity. Qed.

(** C6, the counter drifts when calls overlap.  Two calls of
    [AddNode("a", dsn)] on an empty cluster, both past [nodeExists] before
    either takes the lock for the update: both answer [nil], the counter is
    2 and the map has one entry.  Two calls of [RemoveNode("a")] on a cluster
    of one node, interleaved the same way: the counter is -1 and the map is
    empty. *)
Theorem overlapping_calls_drift :
  (let r := run_schedule healthy [0; 1; 0; 1; 0; 1]
              [atAddNode "a" "dsn_a"; atAddNode "a" "dsn_a"] (NewCluster 1) in
   r.1 = [returned None; returned None] /\
   Len r.2 = 2%Z /\ size (nodes (cluster r.2)) = 1) /\
  (let r := run_schedule healthy [0; 1; 0; 1]
              [atRemoveNode "a"; atRemoveNode "a"] (one_node 1) in
   r.1 = [returned None; returned None] /\
   Len r.2 = (-1)%Z /\ size (nodes (cluster r.2)) = 0).
Proof. vm_compute. repeat split. Qed.

(** ** Changing the limit *)

Section limits.
Variable sql : driver.

Lemma exec_limitRPS o s :
  is_SetLimitRPS o = false ->
  limitRPS (cluster (exec sql o s)) = limitRPS (cluster s).
Proof.
  destruct o as [r|name dsn|name| | |n|n|now]; cbn [is_SetLimitRPS exec];
    intros Hno; try discriminate Hno; try reflexivity.
  - destruct (AddNode_cases sql name dsn s)
      as [[_ ->]|[(_ & e & _ & ->)|(_ & x & _ & ->)]]; reflexivity.
  - unfold RemoveNode. destruct (nodeExists name s); reflexivity.
  - unfold Cluster_Node.
    destruct (idleNode (cluster s)), (selector s); reflexivity.
  - rewrite Close_state. reflexivity.
  - unfold selector_step. destruct (selector s) as [[|[k n'] todo]|n' todo|n' todo].
    + reflexivity.
    + destruct (node_Allow now n' (heap s)). reflexivity.
    + destruct (idleNode (cluster s)); reflexivity.
    + destruct (idleNode (cluster s)); reflexivity.
Qed.

Lemma exec_all_limitRPS os s :
  forallb (fun o => negb (is_SetLimitRPS o)) os = true ->
  limitRPS (cluster (exec_all sql os s)) = limitRPS (cluster s).
Proof.
  revert s. induction os as [|o os IH]; intros s Hno; [reflexivity|].
  cbn in Hno. apply andb_prop in Hno as [Ho Hos].
  cbn. unfold exec_all in IH. rewrite IH by exact Hos.
  apply exec_limitRPS. by destruct (is_SetLimitRPS o).
Qed.

(** A successful [AddNode] registers a new node whose gate has the
    cluster's limit. *)
Lemma AddNode_nil_iff name dsn s :
  (AddNode sql name dsn s).1 = None <->
  nodes (cluster s) !! name = None /\
  drv_open sql dsn = None /\ drv_ping sql dsn = None.
Proof.
  destruct (AddNode_cases sql name dsn s)
    as [[[l Hl] ->]|[(Hn & e & Hnew & ->)|(Hn & node & Hnew & ->)]];
    cbn [fst snd].
  - split; [discriminate|]. intros (Hn & _). congruence.
  - split; [discriminate|]. intros (_ & Ho & Hp). exfalso.
    unfold newNode in Hnew. rewrite Ho, Hp in Hnew. discriminate.
  - split; [|done]. intros _. split; [done|].
    apply newNode_ok in Hnew as (? & ? & _). done.
Qed.

Lemma AddNode_gate name dsn s :
  (AddNode sql name dsn s).1 = None ->
  exists l node,
    nodes (cluster (AddNode sql name dsn s).2) !! name = Some l /\
    heap (AddNode sql name dsn s).2 !! l = Some node /\
    limiter node = rate.NewLimiter (limitRPS (cluster s)) 1.
Proof.
  destruct (AddNode_cases sql name dsn s)
    as [[_ ->]|[(_ & e & _ & ->)|(_ & node & Hnew & ->)]];
    cbn [fst snd]; try discriminate.
  intros _. exists (length (heap s)), node. split; [|split].
  - cbn. apply lookup_insert_eq.
  - cbn. by apply list_lookup_middle.
  - by apply newNode_ok in Hnew as (_ & _ & ?).
Qed.
End limits.

(** C8.  After [SetLimitRPS(R2)], with [R2] a limit that the conversion to
    [rate.Limit] keeps as it is, the gate of every registered node is a
    limiter of limit [R2].  A call of [AddNode] made later, after any calls
    other than [SetLimitRPS] and any steps of the selector, succeeds exactly
    when the name is free and the database opens and answers the ping, and
    the node it registers starts with a limiter of limit [R2]. *)
Theorem SetLimitRPS_propagates (sql : driver) (s : State) (R2 : Z) :
  reachable sql s -> Limit_exact R2 ->
  let s1 := SetLimitRPS R2 s in
  nodes (cluster s1) = nodes (cluster s) /\
  (forall name l,
     nodes (cluster s1) !! name = Some l ->
     exists node, heap s1 !! l = Some node /\
       limiter node = rate.NewLimiter R2 1 /\ rate.limit (limiter node) = R2) /\
  (forall os name dsn,
     forallb (fun o => negb (is_SetLimitRPS o)) os = true ->
     let s2 := exec_all sql os s1 in
     ((AddNode sql name dsn s2).1 = None <->
      nodes (cluster s2) !! name = None /\
      drv_open sql dsn = None /\ drv_ping sql dsn = None) /\
     ((AddNode sql name dsn s2).1 = None ->
      exists l node,
        nodes (cluster (AddNode sql name dsn s2).2) !! name = Some l /\
        heap (AddNode sql name dsn s2).2 !! l = Some node /\
        limiter node = rate.NewLimiter R2 1 /\
        rate.limit (limiter node) = R2)).
Proof.
  intros Hreach _ s1. apply wf_reachable in Hreach as Hwf.
  split; [reflexivity|]. split.
  - intros k l Hl. cbn in Hl |- *.
    destruct (for_each_node_sets
                (fun node => limiter node = rate.NewLimiter R2 1)
                (setLimit R2) (map_to_list (nodes (cluster s)))
                (fun _ => eq_refl) (heap s) k l) as (node & Hnode & Hlim).
    + by apply elem_of_map_to_list.
    + by apply Hwf in Hl.
    + exists node. unfold Range. cbn [nodes]. rewrite Hnode, Hlim. auto.
  - intros os k dsn Hno s2. split; [apply AddNode_nil_iff|].
    intros Hok.
    destruct (AddNode_gate sql k dsn s2 Hok) as (l & node & Hl & Hnode & Hlim).
    exists l, node. unfold s2 in Hlim.
    rewrite (exec_all_limitRPS sql os s1 Hno) in Hlim. cbn in Hlim.
    rewrite Hlim. auto.
Qed.

Lemma SetLimitRPS_propagates_witness :
  let s1 := SetLimitRPS 5 (one_node 1) in
  let os := [opSelector 0; opAddNode "c" "dsn_c"; opSelector 0; opNode] in
  let r := AddNode healthy "b" "dsn_b" (exec_all healthy os s1) in
  reachable healthy (one_node 1) /\ Limit_exact 5 /\
  nodes (cluster s1) !! "a" = Some 0 /\
  (exists node, heap s1 !! 0 = Some node /\
     limiter node = rate.NewLimiter 5 1 /\ rate.limit (limiter node) = 5%Z) /\
  forallb (fun o => negb (is_SetLimitRPS o)) os = true /\
  r.1 = None /\
  (exists l node,
     nodes (cluster r.2) !! "b" = Some l /\ heap r.2 !! l = Some node /\
     limiter node = rate.NewLimiter 5 1 /\ rate.limit (limiter node) = 5%Z).
Proof.
  intros s1 os r.
  assert (H : reachable healthy (one_node 1)).
  { exists 1%Z, [opAddNode "a" "dsn_a"]. reflexivity. }
  assert (He : Limit_exact 5) by (split; vm_compute; discriminate).
  destruct (SetLimitRPS_propagates healthy (one_node 1) 5 H He)
    as (_ & Hold & Hnew).
  destruct (Hnew os "b" "dsn_b" eq_refl) as [Hiff Hb].
  assert (Hok : r.1 = None)
    by exact (proj2 Hiff (conj eq_refl (conj eq_refl eq_refl))).
  exact (conj H (conj He (conj eq_refl (conj (Hold "a" 0 eq_refl)
           (conj eq_refl (conj Hok (Hb Hok))))))).
Defined.

(** ** The selector and the handoff *)

Section handoff.
Lemma selector_step_same_gates now s1 s2 :
  same_gates s1 s2 ->
  (selector_step now s1).1 = (selector_step now s2).1 /\
  same_gates (selector_step now s1).2 (selector_step now s2).2.
Proof.
  intros (Hc & Hg & Hh). unfold selector_step. rewrite <- Hg, <- Hc.
  destruct (selector s1) as [[|[k n] todo]|n todo|n todo] eqn:Hsel.
  - split; [reflexivity|]. by split.
  - unfold node_Allow.
    assert (limiter <$> heap s1 !! n = limiter <$> heap s2 !! n) as Hn.
    { by rewrite <- !list_lookup_fmap, Hh. }
    destruct (heap s1 !! n) as [n1|], (heap s2 !! n) as [n2|];
      cbn in Hn; try discriminate Hn.
    + injection Hn as ->.
      destruct (rate.Allow (limiter n2) now) as [ok lim].
      split; [reflexivity|]. split; [reflexivity|]. split; [reflexivity|].
      cbn. rewrite !list_fmap_insert. cbn. by rewrite Hh.
    + split; [reflexivity|]. by split.
  - destruct (idleNode (cluster s1)); (split; [reflexivity|]).
    + split; [exact Hc|]. split; [reflexivity|exact Hh].
    + split; [|by split]. cbn. by rewrite Hc.
  - destruct (idleNode (cluster s1)); (split; [reflexivity|]).
    + split; [exact Hc|]. split; [cbn [snd]; congruence|exact Hh].
    + split; [|by split]. cbn. by rewrite Hc.
Qed.

Lemma Cluster_Node_same_gates s1 s2 :
  same_gates s1 s2 ->
  match Cluster_Node s1, Cluster_Node s2 with
  | Some (n1, u1), Some (n2, u2) => n1 = n2 /\ same_gates u1 u2
  | None, None => True
  | _, _ => False
  end.
Proof.
  intros (Hc & Hg & Hh). unfold Cluster_Node. rewrite <- Hc, <- Hg.
  destruct (idleNode (cluster s1)) as [n|]; [|done].
  destruct (selector s1) as [todo|m todo|m todo] eqn:Hsel;
    (split; [reflexivity|]); (split; [reflexivity|]);
    (split; [cbn; congruence|exact Hh]).
Qed.

Lemma selector_run_same_gates clock s1 s2 :
  same_gates s1 s2 ->
  (selector_run clock s1).1 = (selector_run clock s2).1 /\
  same_gates (selector_run clock s1).2 (selector_run clock s2).2.
Proof.
  revert s1 s2. induction clock as [|now clock IH]; intros s1 s2 Hs.
  { by split. }
  cbn. destruct (selector_step_same_gates now s1 s2 Hs) as [Ha Hs'].
  destruct (selector_step now s1) as [a1 s1'], (selector_step now s2) as [a2 s2'].
  cbn in Ha, Hs'. subst a2. destruct (IH s1' s2' Hs') as [Ht Hs''].
  destruct (selector_run clock s1') as [t1 u1], (selector_run clock s2') as [t2 u2].
  cbn in *. by subst t2.
Qed.

Lemma timeline_run_same_gates tl s1 s2 :
  same_gates s1 s2 -> (timeline_run tl s1).1 = (timeline_run tl s2).1.
Proof.
  revert s1 s2. induction tl as [|[now [|]] tl IH]; intros s1 s2 Hs.
  - reflexivity.
  - cbn. apply IH, selector_step_same_gates, Hs.
  - cbn [timeline_run]. pose proof (Cluster_Node_same_gates s1 s2 Hs) as Hn.
    destruct (Cluster_Node s1) as [[n1 u1]|], (Cluster_Node s2) as [[n2 u2]|];
      try done.
    + destruct Hn as [<- Hu]. specialize (IH u1 u2 Hu).
      destruct (timeline_run tl u1), (timeline_run tl u2). cbn in *.
      by rewrite IH.
    + by apply IH.
Qed.

Lemma Close_same_gates sql s : same_gates (Close sql s).2 s.
Proof.
  rewrite Close_state. split; [reflexivity|]. split; [reflexivity|].
  cbn. by apply for_each_node_frame.
Qed.

Lemma selector_run_length clock s :
  length (selector_run clock s).1 = length clock.
Proof.
  revert s. induction clock as [|now clock IH]; intros s; [reflexivity|].
  cbn. destruct (selector_step now s) as [a s']. specialize (IH s').
  destruct (selector_run clock s'). cbn in *. by rewrite IH.
Qed.

Lemma selector_run_app c1 c2 s :
  selector_run (c1 ++ c2) s
  = ((selector_run c1 s).1 ++ (selector_run c2 (selector_run c1 s).2).1,
     (selector_run c2 (selector_run c1 s).2).2).
Proof.
  revert s. induction c1 as [|now c1 IH]; intros s.
  { cbn. by destruct (selector_run c2 s). }
  cbn. destruct (selector_step now s) as [a s']. rewrite IH.
  destruct (selector_run c1 s') as [t1 u1]. cbn.
  by destruct (selector_run c2 u1).
Qed.
End handoff.

(** ** Closing the cluster *)

(** C10.  [Close] leaves the cluster record as it is: the registry, the
    counter and so [Len()] are the same after it, every name is registered to
    the node it was registered to, and [Range] visits the same entries.  The
    gates are untouched too, so the selector takes the same steps after
    [Close] as without it and callers of [Node()] receive the same nodes. *)
Theorem Close_keeps_membership (sql : driver) (s : State) :
  let s' := (Close sql s).2 in
  cluster s' = cluster s /\
  nodes (cluster s') = nodes (cluster s) /\
  Len s' = Len s /\
  (forall name, nodes (cluster s') !! name = nodes (cluster s) !! name) /\
  Range (cluster s') = Range (cluster s) /\
  length (heap s') = length (heap s) /\
  (forall clock, (selector_run clock s').1 = (selector_run clock s).1) /\
  (forall tl, (timeline_run tl s').1 = (timeline_run tl s).1).
Proof.
  cbn zeta. pose proof (Close_same_gates sql s) as Hs.
  rewrite Close_state in *. cbn [with_heap cluster heap].
  repeat split; try reflexivity.
  - apply for_each_node_length.
  - intros clock. by apply selector_run_same_gates.
  - intros tl. by apply timeline_run_same_gates.
Qed.

(** C2, the claim as stated fails: after [Close] on a cluster of one node
    the selector walks the registry, finds the node eligible, puts it in
    the buffer and walks the registry again. *)
Lemma selector_runs_after_Close :
  (selector_run [0; 0; 0; 0]%Z (Close healthy (one_node 1)).2).1
  = [actRange 1; actAllow 0 true; actSend 0; actRange 1].
Proof. vm_compute. reflexivity. Qed.

(** C2, amended.  [Close] closes the connection of every registered node,
    whether or not a close fails, and does nothing else: the selector is
    where it was, nothing signals it, and it goes on taking a step at every
    turn, the steps it would have taken without [Close]. *)
Theorem Close_closes_connections_only (sql : driver) (s : State) :
  reachable sql s ->
  let s' := (Close sql s).2 in
  (forall name l,
     nodes (cluster s) !! name = Some l ->
     exists node, heap s' !! l = Some node /\ db_closed (db node) = true) /\
  selector s' = selector s /\
  idleNode (cluster s') = idleNode (cluster s) /\
  (forall clock,
     (selector_run clock s').1 = (selector_run clock s).1 /\
     length (selector_run clock s').1 = length clock).
Proof.
  intros Hreach s'. apply wf_reachable in Hreach as Hwf.
  pose proof (Close_same_gates sql s) as Hs. subst s'.
  split; [|split; [|split]].
  - intros k l Hl. rewrite Close_state. cbn [with_heap heap].
    apply (for_each_node_sets (fun node => db_closed (db node) = true)
             (close_node sql)) with (k := k).
    + intros x. unfold close_node, db_Close. cbn.
      destruct (db_closed (db x)) eqn:Hx; [exact Hx|reflexivity].
    + by apply elem_of_map_to_list.
    + by apply Hwf in Hl.
  - rewrite Close_state. reflexivity.
  - rewrite Close_state. reflexivity.
  - intros clock. split; [by apply selector_run_same_gates|].
    apply selector_run_length.
Qed.

Lemma Close_closes_connections_only_witness :
  reachable healthy (one_node 1) /\
  let s' := (Close healthy (one_node 1)).2 in
  (forall name l,
     nodes (cluster (one_node 1)) !! name = Some l ->
     exists node, heap s' !! l = Some node /\ db_closed (db node) = true) /\
  selector s' = selector (one_node 1) /\
  idleNode (cluster s') = idleNode (cluster (one_node 1)) /\
  (forall clock,
     (selector_run clock s').1 = (selector_run clock (one_node 1)).1 /\
     length (selector_run clock s').1 = length clock).
Proof.
  assert (H : reachable healthy (one_node 1)).
  { exists 1%Z, [opAddNode "a" "dsn_a"]. reflexivity. }
  exact (conj H (Close_closes_connections_only healthy (one_node 1) H)).
Defined.

(** C4, the claim as stated fails: on a cluster without nodes a call of
    [Node()] made after [Close] finds the buffer empty and stays blocked; it
    is still blocked after the selector has taken six more steps.  No error
    is handed to the caller. *)
Lemma Node_blocks_after_Close :
  Cluster_Node (Close healthy (NewCluster 1)).2 = None /\
  Cluster_Node (selector_run [0; 1; 2; 3; 4; 5]%Z
                  (Close healthy (NewCluster 1)).2).2 = None.
Proof. vm_compute. split; reflexivity. Qed.

Lemma selector_run_no_nodes clock s :
  nodes (cluster s) = ∅ -> selector s = Ranging [] ->
  (selector_run clock s).2 = s.
Proof.
  intros Hn Hsel. induction clock as [|now clock IH]; [reflexivity|].
  cbn. unfold selector_step. rewrite Hsel. unfold Range. rewrite Hn.
  rewrite map_to_list_empty. cbn [length].
  replace (with_selector (Ranging []) s) with s
    by (destruct s; cbn in *; by subst).
  destruct (selector_run clock s). exact IH.
Qed.

(** C4, amended.  [Node()] answers a node and nothing else, and [Close]
    leaves the channel and the selector as they are: a call of [Node()] after
    [Close] receives the node it would have received without [Close], also
    when the name of that node has been removed, and is blocked when it
    would have been blocked.  When the registry is empty, the buffer is empty
    and the selector is at the head of its loop, as on a new cluster, the
    call stays blocked however many steps the selector takes after
    [Close]. *)
Theorem Node_after_Close (sql : driver) :
  (forall s, fst <$> Cluster_Node (Close sql s).2 = fst <$> Cluster_Node s) /\
  (forall s clock,
     nodes (cluster s) = ∅ -> idleNode (cluster s) = None ->
     selector s = Ranging [] ->
     Cluster_Node (selector_run clock (Close sql s).2).2 = None).
Proof.
  split.
  - intros s. rewrite Close_state. unfold Cluster_Node. cbn.
    destruct (idleNode (cluster s)); [|reflexivity].
    destruct (selector s); reflexivity.
  - intros s clock Hn Hb Hsel.
    rewrite selector_run_no_nodes; rewrite ?Close_state; try done.
    unfold Cluster_Node. cbn. by rewrite Hb.
Qed.

Lemma Node_after_Close_witness :
  let s := RemoveNode "a" (one_node 1) in
  nodes (cluster s) = ∅ /\ idleNode (cluster s) = None /\
  selector s = Ranging [] /\
  Cluster_Node (selector_run [0; 1; 2]%Z (Close healthy s).2).2 = None /\
  fst <$> Cluster_Node (Close healthy (RemoveNode "a" one_node_spent)).2
  = Some 0.
Proof.
  intros s.
  assert (H1 : nodes (cluster s) = ∅) by reflexivity.
  assert (H2 : idleNode (cluster s) = None) by reflexivity.
  assert (H3 : selector s = Ranging []) by reflexivity.
  refine (conj H1 (conj H2 (conj H3 (conj _ _)))).
  - exact (proj2 (Node_after_Close healthy) s [0; 1; 2]%Z H1 H2 H3).
  - rewrite (proj1 (Node_after_Close healthy)). reflexivity.
Defined.

(** ** The selector when no node is eligible *)

Section idle.
Lemma Allow_refused lim now :
  (rate.Allow lim now).1 = false -> (rate.Allow lim now).2 = lim.
Proof.
  unfold rate.Allow, rate.reserveN.
  destruct (rate.limit lim =? 0)%Z.
  - destruct (1 <=? rate.burst lim)%Z; [discriminate|reflexivity].
  - match goal with |- context [if ?b then _ else _] => destruct b end;
      [discriminate|reflexivity].
Qed.

Lemma node_Allow_refused now n h node :
  h !! n = Some node -> (rate.Allow (limiter node) now).1 = false ->
  node_Allow now n h = (false, h).
Proof.
  intros Hn Hno. unfold node_Allow. rewrite Hn.
  pose proof (Allow_refused _ _ Hno) as Hlim.
  destruct (rate.Allow (limiter node) now) as [ok lim]. cbn in *. subst.
  f_equal. apply list_insert_id. rewrite Hn. by destruct node.
Qed.

(** The rest of a pass in which every gate refuses. *)
Lemma scan_refused now h c todo :
  Forall (fun e : string * loc =>
            exists node, h !! e.2 = Some node /\
                         (rate.Allow (limiter node) now).1 = false) todo ->
  selector_run (replicate (length todo) now) (mkState h c (Ranging todo))
  = (map (fun e => actAllow e.2 false) todo, mkState h c (Ranging [])).
Proof.
  induction 1 as [|[k n] todo (node & Hn & Hno) _ IH]; [reflexivity|].
  cbn [length replicate selector_run]. unfold selector_step.
  cbn [selector heap cluster]. cbn [snd] in Hn.
  rewrite (node_Allow_refused now n h node Hn Hno). rewrite IH. reflexivity.
Qed.

Lemma idle_pass_run now s :
  selector s = Ranging [] -> not_eligible now s ->
  selector_run (replicate (S (length (Range (cluster s)))) now) s
  = (idle_pass (Range (cluster s)), s).
Proof.
  intros Hsel Hno. cbn [replicate selector_run]. unfold selector_step.
  rewrite Hsel. unfold with_selector.
  rewrite (scan_refused now (heap s) (cluster s) _ Hno).
  unfold idle_pass. f_equal. destruct s. cbn in *. by subst.
Qed.
End idle.

(** C9, the claim as stated fails: with the only token of the only node
    spent, the selector makes three passes over the registry while the
    clock reads the same nanosecond; each pass begins as soon as the one
    before has found no eligible node, and no step in between waits. *)
Lemma selector_spins :
  (selector_run [1; 1; 1; 1; 1; 1]%Z one_node_spent).1
  = [actRange 1; actAllow 0 false; actRange 1; actAllow 0 false;
     actRange 1; actAllow 0 false].
Proof. vm_compute. reflexivity. Qed.

(** C9, amended.  When the selector is at the head of its loop and no
    registered node is eligible, it walks the registry again at once: any
    number [k] of passes fits in a single reading of the clock, each made
    of the call of [Range] and one refused check per node, and they leave
    the state as it was.  Nothing in the loop sleeps or waits; the only step
    at which the selector stands still is a send into a full buffer. *)
Theorem selector_rescans_at_once (s : State) (now : Z) (k : nat) :
  selector s = Ranging [] -> not_eligible now s ->
  selector_run (replicate (k * S (length (Range (cluster s)))) now) s
  = (concat (replicate k (idle_pass (Range (cluster s)))), s).
Proof.
  intros Hsel Hno. induction k as [|k IH]; [reflexivity|].
  cbn [Nat.mul replicate concat]. rewrite replicate_add.
  rewrite selector_run_app.
  change (replicate (length (Range (cluster s))) now)
    with (tail (replicate (S (length (Range (cluster s)))) now)).
  change (now :: tail (replicate (S (length (Range (cluster s)))) now))
    with (replicate (S (length (Range (cluster s)))) now).
  rewrite (idle_pass_run now s Hsel Hno). cbn [fst snd]. rewrite IH.
  reflexivity.
Qed.

Lemma one_node_spent_not_eligible : not_eligible 1 one_node_spent.
Proof.
  unfold not_eligible.
  replace (Range (cluster one_node_spent)) with [("a", 0)]
    by (vm_compute; reflexivity).
  constructor; [|constructor].
  exists (mkNode "a" (mkDB "dsn_a" false 0 0) (rate.mkLimiter 1 1 0 0)).
  split; vm_compute; reflexivity.
Qed.

Lemma selector_rescans_at_once_witness :
  selector one_node_spent = Ranging [] /\ not_eligible 1 one_node_spent /\
  selector_run
    (replicate (3 * S (length (Range (cluster one_node_spent)))) 1%Z)
    one_node_spent
  = (concat (replicate 3 (idle_pass (Range (cluster one_node_spent)))),
     one_node_spent).
Proof.
  assert (H1 : selector one_node_spent = Ranging []) by reflexivity.
  refine (conj H1 (conj one_node_spent_not_eligible _)).
  exact (selector_rescans_at_once one_node_spent 1 3 H1
           one_node_spent_not_eligible).
Defined.


(** * Further properties of the code *)

(** ** Removing and adding *)

Lemma int_wrap_range z : (- 2 ^ 63 <= int_wrap z < 2 ^ 63)%Z.
Proof. unfold int_wrap. pose proof (Z.mod_pos_bound (z + 2 ^ 63) (2 ^ 64)). lia. Qed.

Lemma int_wrap_small z : (- 2 ^ 63 <= z < 2 ^ 63)%Z -> int_wrap z = z.
Proof. intros H. unfold int_wrap. rewrite Z.mod_small; lia. Qed.

(** X1.  [RemoveNode] of a name that is not registered changes nothing, and
    a second [RemoveNode] of the same name changes nothing more. *)
Theorem RemoveNode_idempotent (name : string) (s : State) :
  (nodes (cluster s) !! name = None -> RemoveNode name s = s) /\
  RemoveNode name (RemoveNode name s) = RemoveNode name s.
Proof.
  split.
  - intros Hn. unfold RemoveNode, nodeExists. rewrite Hn.
    rewrite bool_decide_eq_false_2; [reflexivity|]. by intros [? ?].
  - unfold RemoveNode at 2 3. destruct (nodeExists name s) eqn:Hex.
    + unfold RemoveNode, nodeExists. cbn. rewrite lookup_delete_eq.
      rewrite bool_decide_eq_false_2; [reflexivity|]. by intros [? ?].
    + unfold RemoveNode. by rewrite Hex.
Qed.

(** [RemoveNode] deletes the name from the map and leaves the store. *)
Lemma RemoveNode_frame (name : string) (s : State) :
  nodes (cluster (RemoveNode name s)) = delete name (nodes (cluster s)) /\
  heap (RemoveNode name s) = heap s.
Proof.
  unfold RemoveNode, nodeExists. case_bool_decide as Hex; [done|].
  split; [|done]. rewrite delete_id; [done|].
  destruct (nodes (cluster s) !! name) eqn:E; [|done]. exfalso. eauto.
Qed.

(** X2.  [RemoveNode] unregisters the name and does nothing else: the other
    names stay registered, the counter goes down by one when the name was
    registered, the store of nodes is untouched (the connection of the
    removed node is not closed), and a node that already sits in the buffer
    of the channel is still delivered by [Node()]. *)
Theorem RemoveNode_only_unregisters (name : string) (s : State) :
  let s' := RemoveNode name s in
  nodes (cluster s') = delete name (nodes (cluster s)) /\
  nodes (cluster s') !! name = None /\
  (forall k, k <> name -> nodes (cluster s') !! k = nodes (cluster s) !! k) /\
  (is_Some (nodes (cluster s) !! name) -> Len s' = int_wrap (Len s - 1)) /\
  heap s' = heap s /\
  selector s' = selector s /\
  idleNode (cluster s') = idleNode (cluster s) /\
  fst <$> Cluster_Node s' = fst <$> Cluster_Node s.
Proof.
  cbn zeta. unfold RemoveNode, nodeExists. case_bool_decide as Hex.
  - cbn. rewrite lookup_delete_eq.
    repeat split; try reflexivity.
    + intros k Hk. by rewrite lookup_delete_ne.
    + unfold Cluster_Node. cbn.
      by destruct (idleNode (cluster s)), (selector s).
  - assert (Hn : nodes (cluster s) !! name = None).
    { destruct (nodes (cluster s) !! name) eqn:E; [|done].
      exfalso. apply Hex. eauto. }
    rewrite delete_id by exact Hn.
    repeat split; try reflexivity; try exact Hn.
    intros Hs. by destruct Hex.
Qed.

(** The node that a successful [newNode] returns. *)
Lemma newNode_node sql name dsn r idle open node :
  newNode sql name dsn r idle open = inr node ->
  node = {| name := name;
            db := db_SetMaxOpenConns open
                    (db_SetMaxIdleConns idle
                       {| db_dsn := dsn; db_closed := false;
                          db_maxIdle := 2; db_maxOpen := 0 |});
            limiter := rate.NewLimiter r 1 |}.
Proof.
  unfold newNode.
  destruct (drv_open sql dsn); cbn [fmap option_fmap option_map];
    [discriminate|].
  destruct (drv_ping sql dsn); cbn [fmap option_fmap option_map];
    [discriminate|].
  by intros [= <-].
Qed.

(** The limits of a connection that was opened and then given the pool
    sizes [idle] and [open], as [newNode] does. *)
Lemma new_connection_limits (dsn : string) (idle open : Z) :
  let d := db_SetMaxOpenConns open
             (db_SetMaxIdleConns idle
                {| db_dsn := dsn; db_closed := false;
                   db_maxIdle := 2; db_maxOpen := 0 |}) in
  db_dsn d = dsn /\ db_closed d = false /\
  db_maxOpen d = Z.max 0 open /\
  db_maxIdle d = (if ((0 <? open) && (open <? Z.max 0 idle))%Z
                  then open else Z.max 0 idle).
Proof.
  unfold db_SetMaxOpenConns, db_SetMaxIdleConns.
  cbn [db_dsn db_closed db_maxIdle db_maxOpen]. change (0 <? 0)%Z with false.
  cbn [andb].
  assert ((if (0 <? idle)%Z then idle else 0%Z) = Z.max 0 idle) as ->
    by (destruct (Z.ltb_spec 0 idle); lia).
  assert ((if (open <? 0)%Z then 0%Z else open) = Z.max 0 open) as ->
    by (destruct (Z.ltb_spec open 0); lia).
  assert ((0 <? Z.max 0 open)%Z = (0 <? open)%Z) as ->
    by (destruct (Z.ltb_spec 0 open), (Z.ltb_spec 0 (Z.max 0 open)); lia).
  destruct (Z.ltb_spec 0 open) as [Ho|Ho]; cbn [andb]; [|by repeat split].
  rewrite (Z.max_r 0 open) by lia.
  destruct (Z.ltb_spec open (Z.max 0 idle)) as [Hi|Hi];
    cbn [db_dsn db_closed db_maxIdle db_maxOpen]; [|by repeat split].
  destruct (Z.ltb_spec 0 open) as [_|?]; [|lia].
  destruct (Z.ltb_spec 0 open) as [_|?]; [|lia]. cbn [andb].
  destruct (Z.ltb_spec open open) as [?|_]; [lia|]. done.
Qed.

(** X3.  A successful [AddNode] registers the name to a newly allocated
    node and touches nothing that was there: the node is appended to the
    store, it holds an open connection to the DSN and a full gate of the
    cluster's limit, the counter goes up by one, the other names, the buffer
    and the selector are as before.  The connection has the pool sizes of
    the cluster as [database/sql] takes them: a negative limit of open
    connections is no limit, no idle connections are retained for an idle
    limit of 0 or less, and the idle limit is reduced to a positive limit of
    open connections. *)
Theorem AddNode_registers (sql : driver) (name dsn : string) (s : State) :
  (AddNode sql name dsn s).1 = None ->
  let s' := (AddNode sql name dsn s).2 in
  let c := cluster s in
  nodes (cluster s') = <[name := length (heap s)]> (nodes c) /\
  heap s' = heap s ++
    [ {| name := name;
         db := {| db_dsn := dsn; db_closed := false;
                  db_maxIdle :=
                    (if ((0 <? maxOpenConn c)
                         && (maxOpenConn c <? Z.max 0 (maxIdleConn c)))%Z
                     then maxOpenConn c else Z.max 0 (maxIdleConn c));
                  db_maxOpen := Z.max 0 (maxOpenConn c) |};
         limiter := rate.NewLimiter (limitRPS c) 1 |} ] /\
  nodeExists name s' = true /\
  (forall k, k <> name -> nodes (cluster s') !! k = nodes c !! k) /\
  Len s' = int_wrap (Len s + 1) /\
  selector s' = selector s /\
  idleNode (cluster s') = idleNode c /\
  limitRPS (cluster s') = limitRPS c /\
  maxIdleConn (cluster s') = maxIdleConn c /\
  maxOpenConn (cluster s') = maxOpenConn c.
Proof.
  destruct (AddNode_cases sql name dsn s)
    as [[_ ->]|[(_ & e & _ & ->)|(_ & node & Hnew & ->)]];
    cbn [fst snd]; try discriminate.
  intros _. cbn zeta.
  split; [reflexivity|]. split.
  - apply newNode_node in Hnew as ->.
    pose proof (new_connection_limits dsn (maxIdleConn (cluster s))
                  (maxOpenConn (cluster s))) as (H1 & H2 & H3 & H4).
    cbn zeta in H1, H2, H3, H4. unfold store_node. cbn [heap].
    destruct (db_SetMaxOpenConns _ _) as [d1 d2 d3 d4].
    cbn [db_dsn db_closed db_maxIdle db_maxOpen] in *. by subst.
  - repeat split; try reflexivity.
    + unfold nodeExists. cbn. rewrite lookup_insert_eq.
      apply bool_decide_eq_true_2. eauto.
    + intros k Hk. cbn. by rewrite lookup_insert_ne.
Qed.

Lemma AddNode_registers_witness :
  let s := SetMaxOpenConns 4 (SetMaxIdleConns 9 (one_node 7)) in
  (AddNode healthy "b" "dsn_b" s).1 = None /\
  nodeExists "b" (AddNode healthy "b" "dsn_b" s).2 = true /\
  exists node,
    heap (AddNode healthy "b" "dsn_b" s).2 !! 1 = Some node /\
    db_maxIdle (db node) = 4%Z /\ db_maxOpen (db node) = 4%Z /\
    limiter node = rate.NewLimiter 7 1.
Proof.
  intros s.
  assert (H : (AddNode healthy "b" "dsn_b" s).1 = None) by reflexivity.
  destruct (AddNode_registers healthy "b" "dsn_b" s H)
    as (_ & Hh & Hex & _).
  refine (conj H (conj Hex _)). eexists.
  split; [by rewrite Hh|]. repeat split.
Defined.

(** X4.  Adding a node and removing it again gives back the registry and
    the counter, in every state the program reaches without overlapping
    calls.  The node stays in the store, its connection open. *)
Theorem AddNode_RemoveNode (sql : driver) (name dsn : string) (s : State) :
  reachable sql s ->
  (AddNode sql name dsn s).1 = None ->
  let s' := RemoveNode name (AddNode sql name dsn s).2 in
  nodes (cluster s') = nodes (cluster s) /\
  Len s' = Len s /\
  exists node, heap s' !! length (heap s) = Some node /\
               db_closed (db node) = false.
Proof.
  intros Hreach Hok. pose proof (counted_reachable sql s Hreach) as Hc.
  destruct (AddNode_cases sql name dsn s)
    as [[_ Heq]|[(_ & e & _ & Heq)|(Hnone & node & Hnew & Heq)]];
    rewrite Heq in Hok |- *; cbn [fst snd] in *; try discriminate.
  cbn zeta. unfold RemoveNode, nodeExists. cbn [store_node cluster nodes].
  rewrite lookup_insert_eq. rewrite bool_decide_eq_true_2 by eauto.
  cbn. rewrite delete_insert_eq, delete_id by exact Hnone.
  split; [reflexivity|]. split.
  - rewrite int_wrap_pred. unfold counted, Len in *. rewrite Hc.
    replace (int_wrap (Z.of_nat (size (nodes (cluster s)))) + 1 - 1)%Z
      with (int_wrap (Z.of_nat (size (nodes (cluster s))))) by lia.
    apply int_wrap_small, int_wrap_range.
  - exists node. split; [by apply list_lookup_middle|].
    apply newNode_node in Hnew as ->. cbn [db].
    apply new_connection_limits.
Qed.

Lemma AddNode_RemoveNode_witness :
  reachable healthy (one_node 1) /\
  (AddNode healthy "b" "dsn_b" (one_node 1)).1 = None /\
  Len (RemoveNode "b" (AddNode healthy "b" "dsn_b" (one_node 1)).2)
  = Len (one_node 1).
Proof.
  assert (H : reachable healthy (one_node 1)).
  { exists 1%Z, [opAddNode "a" "dsn_a"]. reflexivity. }
  assert (H2 : (AddNode healthy "b" "dsn_b" (one_node 1)).1 = None)
    by reflexivity.
  refine (conj H (conj H2 _)).
  exact (proj1 (proj2 (AddNode_RemoveNode healthy "b" "dsn_b"
                         (one_node 1) H H2))).
Defined.

(** X5.  A name that was removed can be added again: when the database
    opens and answers the ping, [AddNode] after [RemoveNode] of the same
    name succeeds, and the name is registered to a new node, not to the one
    it had. *)
Theorem RemoveNode_then_AddNode (sql : driver) (name dsn : string) (s : State) :
  drv_open sql dsn = None -> drv_ping sql dsn = None ->
  let r := AddNode sql name dsn (RemoveNode name s) in
  r.1 = None /\
  nodes (cluster r.2) !! name = Some (length (heap s)) /\
  (wf s -> nodes (cluster s) !! name <> Some (length (heap s))).
Proof.
  intros Ho Hp r.
  pose proof (RemoveNode_frame name s) as (Hdel & Hh).
  assert (Hgone : nodes (cluster (RemoveNode name s)) !! name = None)
    by (rewrite Hdel; apply lookup_delete_eq).
  destruct (AddNode_cases sql name dsn (RemoveNode name s))
    as [[Hex _]|[(_ & e & Hnew & _)|(_ & node & Hnew & Heq)]].
  - rewrite Hgone in Hex. by destruct Hex.
  - apply newNode_error in Hnew as (? & ? & _ & [?|[_ ?]]); congruence.
  - subst r. rewrite Heq. cbn [fst snd]. split; [reflexivity|]. split.
    + cbn. rewrite Hh. apply lookup_insert_eq.
    + intros Hwf Hl. apply Hwf in Hl. lia.
Qed.

Lemma RemoveNode_then_AddNode_witness :
  drv_open healthy "dsn_a2" = None /\ drv_ping healthy "dsn_a2" = None /\
  (AddNode healthy "a" "dsn_a2" (RemoveNode "a" (one_node 1))).1 = None.
Proof.
  refine (conj eq_refl (conj eq_refl _)).
  exact (proj1 (RemoveNode_then_AddNode healthy "a" "dsn_a2" (one_node 1)
                  eq_refl eq_refl)).
Defined.

(** X6.  As long as calls do not overlap and fewer than 2^63 nodes are
    registered, [Len()] is the number of registered names. *)
Theorem Len_counts_nodes (sql : driver) (s : State) :
  reachable sql s ->
  (Z.of_nat (size (nodes (cluster s))) < 2 ^ 63)%Z ->
  Len s = Z.of_nat (size (nodes (cluster s))).
Proof.
  intros Hreach Hsize. rewrite (counted_reachable sql s Hreach).
  apply int_wrap_small. lia.
Qed.

Lemma Len_counts_nodes_witness :
  reachable healthy (one_node 1) /\
  (Z.of_nat (size (nodes (cluster (one_node 1)))) < 2 ^ 63)%Z /\
  Len (one_node 1) = Z.of_nat (size (nodes (cluster (one_node 1)))).
Proof.
  assert (H : reachable healthy (one_node 1)).
  { exists 1%Z, [opAddNode "a" "dsn_a"]. reflexivity. }
  assert (H2 : (Z.of_nat (size (nodes (cluster (one_node 1)))) < 2 ^ 63)%Z)
    by (vm_compute; reflexivity).
  exact (conj H (conj H2 (Len_counts_nodes healthy (one_node 1) H H2))).
Defined.

(** X7.  The text of the errors of [AddNode]: the duplicate error carries
    the name; the errors of a failed open or ping carry the message of the
    driver behind a fixed prefix, and do not carry the name of the node.  A
    failed open is reported without the ping being looked at. *)
Theorem AddNode_error_text (sql : driver) (name dsn : string) (s : State) :
  (is_Some (nodes (cluster s) !! name) ->
   Error <$> (AddNode sql name dsn s).1
   = Some ("node name is already exist: " +:+ name)) /\
  (forall msg,
     nodes (cluster s) !! name = None -> drv_open sql dsn = Some msg ->
     Error <$> (AddNode sql name dsn s).1
     = Some ("failed to add a node: open db: " +:+ msg)) /\
  (forall msg,
     nodes (cluster s) !! name = None -> drv_open sql dsn = None ->
     drv_ping sql dsn = Some msg ->
     Error <$> (AddNode sql name dsn s).1
     = Some ("failed to add a node: ping db: " +:+ msg)).
Proof.
  unfold AddNode, nodeExists. split; [|split].
  - intros Hex. rewrite bool_decide_eq_true_2 by exact Hex. reflexivity.
  - intros msg Hn Ho. rewrite Hn.
    rewrite bool_decide_eq_false_2 by (by intros [? ?]).
    unfold newNode. rewrite Ho. reflexivity.
  - intros msg Hn Ho Hp. rewrite Hn.
    rewrite bool_decide_eq_false_2 by (by intros [? ?]).
    unfold newNode. rewrite Ho, Hp. reflexivity.
Qed.

(** ** The result of [Close] *)

Section closing.
Variable sql : driver.

Lemma close_fails_closed node :
  db_closed (db node) = true -> close_fails sql node = None.
Proof. unfold close_fails. by intros ->. Qed.

(** One step of the walk of [Close], by cases. *)
Lemma close_entry_cases re h k l :
  (h !! l = None /\ close_entry sql (re, h) (k, l) = (re, h)) \/
  (exists node, h !! l = Some node /\ close_fails sql node = None /\
     close_entry sql (re, h) (k, l) = (re, <[l := close_node sql node]> h)) \/
  (exists node msg, h !! l = Some node /\ close_fails sql node = Some msg /\
     close_entry sql (re, h) (k, l)
     = (Some (wrapError ("node " +:+ k +:+ ": " +:+ msg) (driverError msg)),
        <[l := close_node sql node]> h)).
Proof.
  unfold close_entry, close_fails, close_node, db_Close. cbn [fst snd].
  destruct (h !! l) as [node|]; [right|left; done].
  destruct (db_closed (db node)) eqn:Hc; cbn.
  - left. exists node. rewrite Hc. done.
  - destruct (drv_close sql (db_dsn (db node))) as [msg|] eqn:Hd; cbn.
    + right. exists node, msg. rewrite Hc, Hd. done.
    + left. exists node. rewrite Hc, Hd. done.
Qed.

Lemma close_node_closed node : db_closed (db (close_node sql node)) = true.
Proof.
  unfold close_node, db_Close. cbn.
  by destruct (db_closed (db node)) eqn:E.
Qed.

Lemma Close_fold_nil es :
  forall re h,
    (foldl (close_entry sql) (re, h) es).1 = None <->
    re = None /\
    forall k l node, (k, l) ∈ es -> h !! l = Some node ->
                     close_fails sql node = None.
Proof.
  induction es as [|[k l] es IH]; intros re h; cbn [foldl].
  { cbn [fst]. split; [intros ->; split; [done|]|by intros [-> _]].
    intros ??? Hin. by apply elem_of_nil in Hin. }
  destruct (close_entry_cases re h k l)
    as [[Hl ->]|[(node & Hl & Hok & ->)|(node & msg & Hl & Hbad & ->)]];
    rewrite IH; clear IH.
  - split; intros [-> H]; (split; [done|]); intros k' l' node' Hin Hl'.
    + apply elem_of_cons in Hin as [[= -> ->]|Hin]; [congruence|eauto].
    + apply (H k' l' node'); [by right|done].
  - split; intros [-> H]; (split; [done|]); intros k' l' node' Hin Hl'.
    + destruct (decide (l' = l)) as [->|Hne]; [congruence|].
      apply elem_of_cons in Hin as [[= -> ->]|Hin]; [done|].
      apply (H k' l' node'); [done|]. by rewrite list_lookup_insert_ne.
    + destruct (decide (l' = l)) as [->|Hne].
      * rewrite list_lookup_insert_eq in Hl' by (by eapply lookup_lt_Some).
        injection Hl' as <-. apply close_fails_closed, close_node_closed.
      * rewrite list_lookup_insert_ne in Hl' by done.
        apply (H k' l' node'); [by right|done].
  - split; [intros [[=] _]|]. intros [_ H].
    specialize (H k l node ltac:(by left) Hl). congruence.
Qed.

Lemma Close_fold_error es :
  forall re h e,
    (foldl (close_entry sql) (re, h) es).1 = Some e ->
    re = Some e \/
    exists k l node msg,
      (k, l) ∈ es /\ h !! l = Some node /\ close_fails sql node = Some msg /\
      e = wrapError ("node " +:+ k +:+ ": " +:+ msg) (driverError msg).
Proof.
  induction es as [|[k l] es IH]; intros re h e; cbn [foldl].
  { cbn. auto. }
  destruct (close_entry_cases re h k l)
    as [[Hl ->]|[(node & Hl & Hok & ->)|(node & msg & Hl & Hbad & ->)]];
    intros Hres; apply IH in Hres as [Hre|(k' & l' & node' & m & Hin & Hl' & Hf & ->)].
  - by left.
  - right. exists k', l', node', m. split; [by right|done].
  - by left.
  - right. exists k', l', node', m. split; [by right|]. split; [|done].
    destruct (decide (l' = l)) as [->|Hne].
    + rewrite list_lookup_insert_eq in Hl' by (by eapply lookup_lt_Some).
      injection Hl' as <-.
      rewrite close_fails_closed in Hf by apply close_node_closed. discriminate.
    + by rewrite list_lookup_insert_ne in Hl'.
  - injection Hre as <-. right. exists k, l, node, msg.
    split; [by left|done].
  - right. exists k', l', node', m. split; [by right|]. split; [|done].
    destruct (decide (l' = l)) as [->|Hne].
    + rewrite list_lookup_insert_eq in Hl' by (by eapply lookup_lt_Some).
      injection Hl' as <-.
      rewrite close_fails_closed in Hf by apply close_node_closed. discriminate.
    + by rewrite list_lookup_insert_ne in Hl'.
Qed.

Lemma Close_result s :
  (Close sql s).1 = (foldl (close_entry sql) (None, heap s) (Range (cluster s))).1.
Proof.
  unfold Close.
  by destruct (foldl (close_entry sql) (None, heap s) (Range (cluster s))).
Qed.

(** A walk whose callback changes none of the nodes it visits changes
    nothing. *)
Lemma for_each_node_fix f es h :
  (forall k l node, (k, l) ∈ es -> h !! l = Some node -> f node = node) ->
  for_each_node f es h = h.
Proof.
  revert h. induction es as [|[k l] es IH]; intros h Hf; [reflexivity|].
  rewrite for_each_node_cons. cbn [snd].
  assert (alter f l h = h) as ->.
  { destruct (h !! l) as [node|] eqn:Hl.
    - rewrite <- (insert_as_alter f h l node Hl).
      rewrite (Hf k l node ltac:(by left) Hl). by apply list_insert_id.
    - by apply alter_unallocated. }
  apply IH. intros k' l' node' Hin. apply (Hf k' l' node'). by right.
Qed.
End closing.

(** X8.  [Close] answers [nil] exactly when no registered node has an open
    connection whose close fails. *)
Theorem Close_nil_iff (sql : driver) (s : State) :
  (Close sql s).1 = None <->
  forall k l node,
    nodes (cluster s) !! k = Some l -> heap s !! l = Some node ->
    db_closed (db node) = false ->
    drv_close sql (db_dsn (db node)) = None.
Proof.
  rewrite Close_result, Close_fold_nil. split.
  - intros [_ H] k l node Hk Hl Hopen.
    specialize (H k l node ltac:(by apply elem_of_map_to_list) Hl).
    unfold close_fails in H. by rewrite Hopen in H.
  - intros H. split; [done|]. intros k l node Hin Hl.
    apply elem_of_map_to_list in Hin. unfold close_fails.
    destruct (db_closed (db node)) eqn:Hopen; [done|]. by apply (H k l).
Qed.

(** X9.  An error of [Close] is the failure of one registered node: the
    message of the driver for a connection that was open, behind the name
    that node is registered under.  When several connections fail to close,
    the failures of the others are not in the result. *)
Theorem Close_error_names_one_node (sql : driver) (s : State) (e : error) :
  (Close sql s).1 = Some e ->
  exists k l node msg,
    nodes (cluster s) !! k = Some l /\ heap s !! l = Some node /\
    db_closed (db node) = false /\
    drv_close sql (db_dsn (db node)) = Some msg /\
    e = wrapError ("node " +:+ k +:+ ": " +:+ msg) (driverError msg) /\
    Error e = "node " +:+ k +:+ ": " +:+ msg /\
    errors_Is e (driverError msg) = true.
Proof.
  rewrite Close_result. intros H.
  apply Close_fold_error in H as [[=]|(k & l & node & msg & Hin & Hl & Hf & ->)].
  exists k, l, node, msg. apply elem_of_map_to_list in Hin.
  unfold close_fails in Hf. destruct (db_closed (db node)); [discriminate|].
  repeat split; try done.
  cbn [errors_Is].
  rewrite (bool_decide_eq_true_2 (driverError msg = driverError msg)) by done.
  by rewrite orb_true_r.
Qed.

Lemma Close_error_names_one_node_witness :
  (Close unclosable (one_node 1)).1
  = Some (wrapError "node a: cannot close dsn_a"
                    (driverError "cannot close dsn_a")) /\
  exists k l node msg,
    nodes (cluster (one_node 1)) !! k = Some l /\
    heap (one_node 1) !! l = Some node /\
    db_closed (db node) = false /\
    drv_close unclosable (db_dsn (db node)) = Some msg /\
    wrapError "node a: cannot close dsn_a" (driverError "cannot close dsn_a")
    = wrapError ("node " +:+ k +:+ ": " +:+ msg) (driverError msg) /\
    Error (wrapError "node a: cannot close dsn_a"
                     (driverError "cannot close dsn_a"))
    = "node " +:+ k +:+ ": " +:+ msg /\
    errors_Is (wrapError "node a: cannot close dsn_a"
                         (driverError "cannot close dsn_a"))
              (driverError msg) = true.
Proof.
  assert (H : (Close unclosable (one_node 1)).1
              = Some (wrapError "node a: cannot close dsn_a"
                                (driverError "cannot close dsn_a")))
    by (vm_compute; reflexivity).
  exact (conj H (Close_error_names_one_node unclosable (one_node 1) _ H)).
Defined.

(** X10.  [Close] can be called again: the second call answers [nil], also
    when the first answered an error, and changes nothing. *)
Theorem Close_twice (sql : driver) (s : State) :
  Close sql (Close sql s).2 = (None, (Close sql s).2).
Proof.
  set (s1 := (Close sql s).2).
  assert (Hclosed : forall k l node,
            (k, l) ∈ Range (cluster s1) -> heap s1 !! l = Some node ->
            db_closed (db node) = true).
  { intros k l node Hin Hl. subst s1. rewrite Close_state in Hin, Hl.
    cbn [with_heap heap cluster] in Hin, Hl.
    destruct (for_each_node_sets (fun node => db_closed (db node) = true)
                (close_node sql) (Range (cluster s))
                (close_node_closed sql) (heap s) k l Hin) as (node' & Hl' & Hc).
    - rewrite <- (for_each_node_length (close_node sql) (Range (cluster s))).
      by eapply lookup_lt_Some.
    - congruence. }
  rewrite (surjective_pairing (Close sql s1)). f_equal.
  - rewrite Close_result. apply Close_fold_nil. split; [done|].
    intros k l node Hin Hl. apply close_fails_closed. by apply (Hclosed k l).
  - rewrite Close_state. rewrite for_each_node_fix; [by destruct s1|].
    intros k l node Hin Hl. specialize (Hclosed k l node Hin Hl).
    unfold close_node, db_Close. rewrite Hclosed. by destruct node.
Qed.

(** ** Pool sizes and limits *)

Section settings.
Variable sql : driver.

Lemma exec_maxIdleConn o s :
  is_SetMaxIdleConns o = false ->
  maxIdleConn (cluster (exec sql o s)) = maxIdleConn (cluster s).
Proof.
  destruct o as [r|name dsn|name| | |n|n|now];
    cbn [is_SetMaxIdleConns exec];
    intros Hno; try discriminate Hno; try reflexivity.
  - destruct (AddNode_cases sql name dsn s)
      as [[_ ->]|[(_ & e & _ & ->)|(_ & x & _ & ->)]]; reflexivity.
  - unfold RemoveNode. destruct (nodeExists name s); reflexivity.
  - unfold Cluster_Node.
    destruct (idleNode (cluster s)), (selector s); reflexivity.
  - rewrite Close_state. reflexivity.
  - unfold selector_step. destruct (selector s) as [[|[k n'] todo]|n' todo|n' todo].
    + reflexivity.
    + destruct (node_Allow now n' (heap s)). reflexivity.
    + destruct (idleNode (cluster s)); reflexivity.
    + destruct (idleNode (cluster s)); reflexivity.
Qed.

Lemma exec_maxOpenConn o s :
  is_SetMaxOpenConns o = false ->
  maxOpenConn (cluster (exec sql o s)) = maxOpenConn (cluster s).
Proof.
  destruct o as [r|name dsn|name| | |n|n|now];
    cbn [is_SetMaxOpenConns exec];
    intros Hno; try discriminate Hno; try reflexivity.
  - destruct (AddNode_cases sql name dsn s)
      as [[_ ->]|[(_ & e & _ & ->)|(_ & x & _ & ->)]]; reflexivity.
  - unfold RemoveNode. destruct (nodeExists name s); reflexivity.
  - unfold Cluster_Node.
    destruct (idleNode (cluster s)), (selector s); reflexivity.
  - rewrite Close_state. reflexivity.
  - unfold selector_step. destruct (selector s) as [[|[k n'] todo]|n' todo|n' todo].
    + reflexivity.
    + destruct (node_Allow now n' (heap s)). reflexivity.
    + destruct (idleNode (cluster s)); reflexivity.
    + destruct (idleNode (cluster s)); reflexivity.
Qed.

Lemma exec_all_maxIdleConn os s :
  forallb (fun o => negb (is_SetMaxIdleConns o)) os = true ->
  maxIdleConn (cluster (exec_all sql os s)) = maxIdleConn (cluster s).
Proof.
  revert s. induction os as [|o os IH]; intros s Hno; [reflexivity|].
  cbn in Hno. apply andb_prop in Hno as [Ho Hos].
  cbn. unfold exec_all in IH. rewrite IH by exact Hos.
  apply exec_maxIdleConn. by destruct (is_SetMaxIdleConns o).
Qed.

Lemma exec_all_maxOpenConn os s :
  forallb (fun o => negb (is_SetMaxOpenConns o)) os = true ->
  maxOpenConn (cluster (exec_all sql os s)) = maxOpenConn (cluster s).
Proof.
  revert s. induction os as [|o os IH]; intros s Hno; [reflexivity|].
  cbn in Hno. apply andb_prop in Hno as [Ho Hos].
  cbn. unfold exec_all in IH. rewrite IH by exact Hos.
  apply exec_maxOpenConn. by destruct (is_SetMaxOpenConns o).
Qed.

(** The connection of a node that [AddNode] registers has the pool sizes of
    the cluster, as [database/sql] takes them. *)
Lemma AddNode_pool name dsn s :
  (AddNode sql name dsn s).1 = None ->
  exists l node,
    nodes (cluster (AddNode sql name dsn s).2) !! name = Some l /\
    heap (AddNode sql name dsn s).2 !! l = Some node /\
    db_maxOpen (db node) = Z.max 0 (maxOpenConn (cluster s)) /\
    db_maxIdle (db node)
    = (if ((0 <? maxOpenConn (cluster s))
           && (maxOpenConn (cluster s) <? Z.max 0 (maxIdleConn (cluster s))))%Z
       then maxOpenConn (cluster s) else Z.max 0 (maxIdleConn (cluster s))).
Proof.
  destruct (AddNode_cases sql name dsn s)
    as [[_ ->]|[(_ & e & _ & ->)|(_ & node & Hnew & ->)]];
    cbn [fst snd]; try discriminate.
  intros _. exists (length (heap s)), node. split; [|split].
  - cbn. apply lookup_insert_eq.
  - cbn. by apply list_lookup_middle.
  - apply newNode_node in Hnew as ->. cbn [db].
    pose proof (new_connection_limits dsn (maxIdleConn (cluster s))
                  (maxOpenConn (cluster s))) as (_ & _ & H3 & H4). done.
Qed.

(** What [db.SetMaxIdleConns(n)] leaves in force. *)
Lemma db_SetMaxIdleConns_limits n d :
  db_dsn (db_SetMaxIdleConns n d) = db_dsn d /\
  db_closed (db_SetMaxIdleConns n d) = db_closed d /\
  db_maxOpen (db_SetMaxIdleConns n d) = db_maxOpen d /\
  db_maxIdle (db_SetMaxIdleConns n d)
  = (if ((0 <? db_maxOpen d) && (db_maxOpen d <? Z.max 0 n))%Z
     then db_maxOpen d else Z.max 0 n).
Proof.
  unfold db_SetMaxIdleConns. cbn.
  assert ((if (0 <? n)%Z then n else 0%Z) = Z.max 0 n) as ->
    by (destruct (Z.ltb_spec 0 n); lia).
  done.
Qed.

(** What [db.SetMaxOpenConns(n)] leaves in force. *)
Lemma db_SetMaxOpenConns_limits n d :
  db_dsn (db_SetMaxOpenConns n d) = db_dsn d /\
  db_closed (db_SetMaxOpenConns n d) = db_closed d /\
  db_maxOpen (db_SetMaxOpenConns n d) = Z.max 0 n /\
  db_maxIdle (db_SetMaxOpenConns n d)
  = (if ((0 <? n) && (n <? db_maxIdle d))%Z then n else db_maxIdle d).
Proof.
  unfold db_SetMaxOpenConns, db_SetMaxIdleConns.
  cbn [db_dsn db_closed db_maxIdle db_maxOpen].
  destruct (Z.ltb_spec n 0) as [Hn|Hn].
  - change (0 <? 0)%Z with false. cbn.
    destruct (Z.ltb_spec 0 n); [lia|]. cbn. repeat split. lia.
  - destruct (Z.ltb_spec 0 n) as [Hp|Hp]; cbn [andb].
    + destruct (Z.ltb_spec n (db_maxIdle d)) as [Hi|Hi]; cbn.
      * destruct (Z.ltb_spec 0 n); [|lia]. cbn.
        destruct (Z.ltb_spec n n); [lia|]. repeat split. lia.
      * repeat split. lia.
    + cbn. repeat split. lia.
Qed.

Lemma node_SetMaxIdleConns_idem n x :
  node_SetMaxIdleConns n (node_SetMaxIdleConns n x) = node_SetMaxIdleConns n x.
Proof.
  unfold node_SetMaxIdleConns, db_SetMaxIdleConns. cbn. reflexivity.
Qed.

Lemma node_SetMaxOpenConns_idem n x :
  node_SetMaxOpenConns n (node_SetMaxOpenConns n x) = node_SetMaxOpenConns n x.
Proof.
  unfold node_SetMaxOpenConns. cbn [name db limiter]. f_equal.
  pose proof (db_SetMaxOpenConns_limits n (db x)) as (H1 & H2 & H3 & H4).
  pose proof (db_SetMaxOpenConns_limits n (db_SetMaxOpenConns n (db x)))
    as (G1 & G2 & G3 & G4).
  destruct (db_SetMaxOpenConns n (db_SetMaxOpenConns n (db x))) as [a b c d].
  destruct (db_SetMaxOpenConns n (db x)) as [a' b' c' d'].
  cbn in *. subst. f_equal.
  destruct (Z.ltb_spec 0 n); cbn [andb]; [|done].
  destruct (Z.ltb_spec n (db_maxIdle (db x))); cbn [andb].
  - by destruct (Z.ltb_spec n n); [lia|].
  - by destruct (Z.ltb_spec n (db_maxIdle (db x))); [lia|].
Qed.

(** A walk with a callback that does the same when applied twice: the
    visited nodes have the callback applied, the others are as before. *)
Lemma for_each_node_lookup f es h l :
  (forall x, f (f x) = f x) ->
  for_each_node f es h !! l
  = if decide (l ∈ es.*2) then f <$> h !! l else h !! l.
Proof.
  intros Hf. revert h. induction es as [|e es IH]; intros h.
  { cbn. by rewrite decide_False by apply not_elem_of_nil. }
  rewrite for_each_node_cons, IH. rewrite fmap_cons.
  destruct (decide (e.2 = l)) as [Heq|Hne].
  - subst l. rewrite list_lookup_alter_eq.
    rewrite (decide_True (P := e.2 ∈ e.2 :: es.*2)) by (by left).
    assert (f <$> (f <$> h !! e.2) = f <$> h !! e.2) as Hff.
    { destruct (h !! e.2); cbn; [by rewrite Hf|done]. }
    rewrite Hff. by destruct (decide (e.2 ∈ es.*2)).
  - rewrite list_lookup_alter_ne by done.
    destruct (decide (l ∈ es.*2)) as [Hin|Hnin].
    + by rewrite decide_True by (by right).
    + rewrite decide_False; [done|].
      intros Hin. apply elem_of_cons in Hin as [?|?]; congruence.
Qed.

Lemma NewLimiter_admits R now :
  (rate.Allow (rate.NewLimiter R 1) now).1 = true.
Proof.
  unfold rate.Allow, rate.reserveN, rate.NewLimiter. cbn [rate.limit rate.burst].
  destruct (Z.eqb_spec R 0) as [->|HR]; [reflexivity|].
  unfold rate.advance, rate.tokensFromDuration, rate.durationFromTokens.
  cbn [rate.limit rate.burst rate.tokens rate.last].
  change (1 <=? 1)%Z with true. cbn [andb].
  set (el := (now - (if (now <? 0)%Z then now else 0%Z))%Z).
  assert (0 <= el)%Z by (unfold el; destruct (Z.ltb_spec now 0); lia).
  set (tok := (if (R <=? 0)%Z then 0 else el * R)%Z).
  assert (0 <= tok)%Z by (unfold tok; destruct (Z.leb_spec R 0); nia).
  change (1 * rate.second)%Z with rate.second.
  destruct (Z.ltb_spec rate.second (rate.second + tok)) as [?|?].
  - rewrite Z.sub_diag. reflexivity.
  - assert (tok = 0)%Z as -> by lia. rewrite Z.add_0_r, Z.sub_diag. reflexivity.
Qed.
End settings.

(** X11.  [SetMaxIdleConns(n)] calls [db.SetMaxIdleConns(n)] on the
    connection of every registered node: afterwards no idle connections are
    retained when [n <= 0], and otherwise the idle limit is [n], reduced to
    the node's limit of open connections when that is positive and smaller.
    The limit of open connections, the gates, the registry and the counter
    are as before.  The cluster keeps [n] for the nodes added later, after
    any calls other than [SetMaxIdleConns]; their idle limit is [n] taken
    the same way against the cluster's limit of open connections. *)
Theorem SetMaxIdleConns_propagates (sql : driver) (s : State) (n : Z) :
  reachable sql s ->
  let s1 := SetMaxIdleConns n s in
  (forall k l,
     nodes (cluster s) !! k = Some l ->
     exists node node1,
       heap s !! l = Some node /\ heap s1 !! l = Some node1 /\
       db_maxOpen (db node1) = db_maxOpen (db node) /\
       db_maxIdle (db node1)
       = (if ((0 <? db_maxOpen (db node))
              && (db_maxOpen (db node) <? Z.max 0 n))%Z
          then db_maxOpen (db node) else Z.max 0 n)) /\
  limiter <$> heap s1 = limiter <$> heap s /\
  nodes (cluster s1) = nodes (cluster s) /\ Len s1 = Len s /\
  maxOpenConn (cluster s1) = maxOpenConn (cluster s) /\
  (forall os name dsn,
     forallb (fun o => negb (is_SetMaxIdleConns o)) os = true ->
     let s2 := exec_all sql os s1 in
     (AddNode sql name dsn s2).1 = None ->
     exists l node,
       nodes (cluster (AddNode sql name dsn s2).2) !! name = Some l /\
       heap (AddNode sql name dsn s2).2 !! l = Some node /\
       db_maxIdle (db node)
       = (if ((0 <? maxOpenConn (cluster s2))
              && (maxOpenConn (cluster s2) <? Z.max 0 n))%Z
          then maxOpenConn (cluster s2) else Z.max 0 n)).
Proof.
  intros Hreach s1. apply wf_reachable in Hreach as Hwf.
  split; [|split; [|split; [|split; [|split]]]]; try reflexivity.
  - intros k l Hl.
    destruct (lookup_lt_is_Some_2 (heap s) l) as [node Hnode];
      [by apply (Hwf k)|].
    exists node, (node_SetMaxIdleConns n node). split; [done|]. split.
    + unfold s1, SetMaxIdleConns, Range. cbn [heap nodes].
      rewrite for_each_node_lookup by apply node_SetMaxIdleConns_idem.
      rewrite decide_True, Hnode; [done|].
      apply list_elem_of_fmap. exists (k, l). split; [done|].
      by apply elem_of_map_to_list.
    + cbn [node_SetMaxIdleConns db].
      by destruct (db_SetMaxIdleConns_limits n (db node)) as (_ & _ & ? & ?).
  - by apply for_each_node_frame.
  - intros os k dsn Hno s2 Hok.
    destruct (AddNode_pool sql k dsn s2 Hok) as (l & node & Hl & Hnode & _ & Hi).
    exists l, node. split; [done|]. split; [done|].
    assert (Hm : maxIdleConn (cluster s2) = n)
      by (unfold s2; by rewrite (exec_all_maxIdleConn sql os s1 Hno)).
    by rewrite Hi, Hm.
Qed.

Lemma SetMaxIdleConns_propagates_witness :
  let s := SetMaxOpenConns 4 (one_node 1) in
  let s1 := SetMaxIdleConns 9 s in
  let s2 := exec_all healthy [opSetLimitRPS 3] s1 in
  reachable healthy s /\
  (exists node1, heap s1 !! 0 = Some node1 /\
                 db_maxIdle (db node1) = 4%Z /\ db_maxOpen (db node1) = 4%Z) /\
  (AddNode healthy "b" "dsn_b" s2).1 = None /\
  (exists node, heap (AddNode healthy "b" "dsn_b" s2).2 !! 1 = Some node /\
                db_maxIdle (db node) = 4%Z).
Proof.
  intros s s1 s2.
  assert (H : reachable healthy s).
  { exists 1%Z, [opAddNode "a" "dsn_a"; opSetMaxOpenConns 4]. reflexivity. }
  assert (Hok : (AddNode healthy "b" "dsn_b" s2).1 = None) by reflexivity.
  destruct (SetMaxIdleConns_propagates healthy s 9 H)
    as (Hold & _ & _ & _ & _ & Hnew).
  destruct (Hold "a" 0 eq_refl) as (node & node1 & Hn & Hn1 & Ho & Hi).
  destruct (Hnew [opSetLimitRPS 3] "b" "dsn_b" eq_refl Hok)
    as (l & nodeb & Hl & Hb & Hib).
  vm_compute in Hn. injection Hn as <-. vm_compute in Ho, Hi.
  vm_compute in Hl. injection Hl as <-.
  refine (conj H (conj _ (conj Hok _))).
  - exists node1. split; [exact Hn1|]. split; [exact Hi|exact Ho].
  - exists nodeb. split; [exact Hb|exact Hib].
Defined.

(** X12.  [SetMaxOpenConns(n)] calls [db.SetMaxOpenConns(n)] on the
    connection of every registered node: afterwards the limit of open
    connections is [n], or none when [n <= 0], and an idle limit above a
    positive [n] is reduced to [n].  The gates, the registry and the counter
    are as before.  The cluster keeps [n] for the nodes added later, after
    any calls other than [SetMaxOpenConns]. *)
Theorem SetMaxOpenConns_propagates (sql : driver) (s : State) (n : Z) :
  reachable sql s ->
  let s1 := SetMaxOpenConns n s in
  (forall k l,
     nodes (cluster s) !! k = Some l ->
     exists node node1,
       heap s !! l = Some node /\ heap s1 !! l = Some node1 /\
       db_maxOpen (db node1) = Z.max 0 n /\
       db_maxIdle (db node1)
       = (if ((0 <? n) && (n <? db_maxIdle (db node)))%Z
          then n else db_maxIdle (db node))) /\
  limiter <$> heap s1 = limiter <$> heap s /\
  nodes (cluster s1) = nodes (cluster s) /\ Len s1 = Len s /\
  maxIdleConn (cluster s1) = maxIdleConn (cluster s) /\
  (forall os name dsn,
     forallb (fun o => negb (is_SetMaxOpenConns o)) os = true ->
     let s2 := exec_all sql os s1 in
     (AddNode sql name dsn s2).1 = None ->
     exists l node,
       nodes (cluster (AddNode sql name dsn s2).2) !! name = Some l /\
       heap (AddNode sql name dsn s2).2 !! l = Some node /\
       db_maxOpen (db node) = Z.max 0 n /\
       db_maxIdle (db node)
       = (if ((0 <? n) && (n <? Z.max 0 (maxIdleConn (cluster s2))))%Z
          then n else Z.max 0 (maxIdleConn (cluster s2)))).
Proof.
  intros Hreach s1. apply wf_reachable in Hreach as Hwf.
  split; [|split; [|split; [|split; [|split]]]]; try reflexivity.
  - intros k l Hl.
    destruct (lookup_lt_is_Some_2 (heap s) l) as [node Hnode];
      [by apply (Hwf k)|].
    exists node, (node_SetMaxOpenConns n node). split; [done|]. split.
    + unfold s1, SetMaxOpenConns, Range. cbn [heap nodes].
      rewrite for_each_node_lookup by apply node_SetMaxOpenConns_idem.
      rewrite decide_True, Hnode; [done|].
      apply list_elem_of_fmap. exists (k, l). split; [done|].
      by apply elem_of_map_to_list.
    + cbn [node_SetMaxOpenConns db].
      by destruct (db_SetMaxOpenConns_limits n (db node)) as (_ & _ & ? & ?).
  - by apply for_each_node_frame.
  - intros os k dsn Hno s2 Hok.
    destruct (AddNode_pool sql k dsn s2 Hok) as (l & node & Hl & Hnode & Ho & Hi).
    exists l, node. split; [done|]. split; [done|].
    assert (Hm : maxOpenConn (cluster s2) = n)
      by (unfold s2; by rewrite (exec_all_maxOpenConn sql os s1 Hno)).
    by rewrite Hi, Ho, Hm.
Qed.

Lemma SetMaxOpenConns_propagates_witness :
  let s := SetMaxIdleConns 5 (one_node 1) in
  let s1 := SetMaxOpenConns 2 s in
  let s2 := exec_all healthy [opSetLimitRPS 3] s1 in
  reachable healthy s /\
  (exists node node1,
     heap s !! 0 = Some node /\ db_maxIdle (db node) = 5%Z /\
     heap s1 !! 0 = Some node1 /\
     db_maxIdle (db node1) = 2%Z /\ db_maxOpen (db node1) = 2%Z) /\
  (AddNode healthy "b" "dsn_b" s2).1 = None /\
  (exists node, heap (AddNode healthy "b" "dsn_b" s2).2 !! 1 = Some node /\
                db_maxIdle (db node) = 2%Z /\ db_maxOpen (db node) = 2%Z).
Proof.
  intros s s1 s2.
  assert (H : reachable healthy s).
  { exists 1%Z, [opAddNode "a" "dsn_a"; opSetMaxIdleConns 5]. reflexivity. }
  assert (Hok : (AddNode healthy "b" "dsn_b" s2).1 = None) by reflexivity.
  destruct (SetMaxOpenConns_propagates healthy s 2 H)
    as (Hold & _ & _ & _ & _ & Hnew).
  destruct (Hold "a" 0 eq_refl) as (node & node1 & Hn & Hn1 & Ho & Hi).
  destruct (Hnew [opSetLimitRPS 3] "b" "dsn_b" eq_refl Hok)
    as (l & nodeb & Hl & Hb & Hob & Hib).
  pose proof Hn as Hn0. vm_compute in Hn. injection Hn as <-.
  vm_compute in Ho, Hi. vm_compute in Hl. injection Hl as <-.
  refine (conj H (conj _ (conj Hok _))).
  - eexists _, node1.
    split; [exact Hn0|]. split; [reflexivity|]. split; [exact Hn1|].
    split; [exact Hi|exact Ho].
  - exists nodeb. split; [exact Hb|]. split; [exact Hib|exact Hob].
Defined.

(** X13.  Of two calls of [SetLimitRPS] in a row the last one wins: the
    state is the one the second call alone would have given.  Calling it
    twice with the same limit is calling it once. *)
Theorem SetLimitRPS_last_wins (r1 r2 : Z) (s : State) :
  SetLimitRPS r2 (SetLimitRPS r1 s) = SetLimitRPS r2 s.
Proof.
  unfold SetLimitRPS. cbn [cluster heap selector nodes idleNode maxIdleConn
                           maxOpenConn nodeLen]. f_equal.
  unfold Range. cbn [nodes]. apply list_eq. intros l.
  rewrite !for_each_node_lookup by reflexivity.
  destruct (decide (l ∈ (map_to_list (nodes (cluster s))).*2)); [|done].
  by destruct (heap s !! l).
Qed.

(** X14.  [SetLimitRPS] makes every registered node eligible: whatever its
    gate held before, the next check of the node is admitted, at any clock
    reading and for any limit. *)
Theorem SetLimitRPS_makes_eligible (sql : driver) (s : State) (r now : Z)
    (k : string) (l : loc) :
  reachable sql s ->
  nodes (cluster s) !! k = Some l ->
  (node_Allow now l (heap (SetLimitRPS r s))).1 = true.
Proof.
  intros Hreach Hl. apply wf_reachable in Hreach as Hwf.
  destruct (for_each_node_sets
              (fun node => limiter node = rate.NewLimiter r 1)
              (setLimit r) (map_to_list (nodes (cluster s)))
              (fun _ => eq_refl) (heap s) k l) as (node & Hnode & Hlim).
  { by apply elem_of_map_to_list. }
  { by apply Hwf in Hl. }
  unfold node_Allow, SetLimitRPS, Range. cbn [heap nodes].
  rewrite Hnode, Hlim.
  pose proof (NewLimiter_admits r now) as H.
  by destruct (rate.Allow (rate.NewLimiter r 1) now).
Qed.

Lemma SetLimitRPS_makes_eligible_witness :
  reachable healthy one_node_spent /\
  nodes (cluster one_node_spent) !! "a" = Some 0 /\
  (node_Allow 0 0 (heap one_node_spent)).1 = false /\
  (node_Allow 0 0 (heap (SetLimitRPS 1 one_node_spent))).1 = true.
Proof.
  assert (H : reachable healthy one_node_spent).
  { exists 1%Z, [opAddNode "a" "dsn_a"; opSelector 0; opSelector 0;
                 opSelector 0]. reflexivity. }
  assert (H2 : nodes (cluster one_node_spent) !! "a" = Some 0) by reflexivity.
  refine (conj H (conj H2 (conj eq_refl _))).
  exact (SetLimitRPS_makes_eligible healthy one_node_spent 1 0 "a" 0 H H2).
Defined.

(** ** The refill of the gate *)

Section refill.
Local Open Scope Z_scope.

(** [Allow] on a limiter of burst 1 and a limit above 0. *)
Lemma Allow_burst_one lim t :
  0 < rate.limit lim -> rate.burst lim = 1 ->
  let a := Z.min (rate.tokens lim
                  + (t - Z.min t (rate.last lim)) * rate.limit lim)
                 rate.second in
  rate.Allow lim t =
    if decide (rate.second - rate.limit lim < a)
    then (true, rate.mkLimiter (rate.limit lim) 1 (a - rate.second) t)
    else (false, lim).
Proof.
  intros HR Hb a. unfold rate.Allow, rate.reserveN, rate.advance.
  unfold rate.tokensFromDuration, rate.durationFromTokens.
  destruct (Z.eqb_spec (rate.limit lim) 0) as [?|_]; [lia|].
  destruct (Z.leb_spec (rate.limit lim) 0) as [?|_]; [lia|].
  assert (Hlast : (if t <? rate.last lim then t else rate.last lim)
                  = Z.min t (rate.last lim))
    by (destruct (Z.ltb_spec t (rate.last lim)); lia).
  rewrite Hlast, Hb, Z.mul_1_l.
  set (x := rate.tokens lim + (t - Z.min t (rate.last lim)) * rate.limit lim)
    in *.
  assert (Ha : (if rate.second <? x then rate.second else x) = a).
  { unfold a. destruct (Z.ltb_spec rate.second x); lia. }
  rewrite Ha. change (1 <=? 1) with true. cbn [andb].
  assert (Hsec : a <= rate.second) by (unfold a; lia).
  destruct (Z.ltb_spec (a - rate.second) 0) as [Hneg|Hnn].
  - rewrite Z.quot_div_nonneg by lia.
    destruct (decide (rate.second - rate.limit lim < a)) as [Hd|Hd].
    + rewrite Z.div_small by lia. reflexivity.
    + destruct (Z.leb_spec (- (a - rate.second) / rate.limit lim) 0) as [Hq|_];
        [|reflexivity].
      exfalso.
      assert (0 < - (a - rate.second) / rate.limit lim); [|lia].
      apply Z.div_str_pos. lia.
  - destruct (decide (rate.second - rate.limit lim < a)) as [Hd|Hd];
      [reflexivity|lia].
Qed.

Lemma gate_after_refused lim mid :
  Forall (fun m => rate.Allow lim m = (false, lim)) mid ->
  gate_after lim mid = lim.
Proof.
  induction 1 as [|m mid Hm _ IH]; [reflexivity|].
  cbn [gate_after]. by rewrite Hm.
Qed.
End refill.

(** X15.  The gate that [setLimit] installs with a limit [R > 0] refills,
    and not before its time.  After the gate has admitted a check at [t],
    every check made from [t] until two nanoseconds before the refill
    interval of [1 / R] second is over is refused and leaves the gate as it
    was; and the first check made a nanosecond or more after the interval
    is over is admitted, however many checks were refused before it.  The
    nanoseconds on either side of the end of the interval are left out:
    there the rounding of the library decides. *)
Theorem gate_refills (R : Z) (n : Node) (lim : rate.Limiter)
    (mid : list Z) (t t' : Z) :
  (0 < R)%Z ->
  rate.limit lim = rate.limit (limiter (setLimit R n)) ->
  rate.burst lim = rate.burst (limiter (setLimit R n)) ->
  (rate.Allow lim t).1 = true ->
  let lim1 := (rate.Allow lim t).2 in
  Forall (fun m => (t <= m)%Z /\ ((m - t + 2) * R <= rate.second)%Z) mid ->
  (rate.second <= (t' - t - 1) * R)%Z ->
  Forall (fun m => rate.Allow lim1 m = (false, lim1)) mid /\
  gate_after lim1 mid = lim1 /\
  (rate.Allow (gate_after lim1 mid) t').1 = true.
Proof.
  intros HR Hl Hb Hadm lim1 Hmid Hwait. cbn in Hl, Hb.
  pose proof (Allow_burst_one lim t) as HA. cbn zeta in HA.
  rewrite Hl in HA. specialize (HA HR Hb).
  subst lim1. rewrite HA in Hadm |- *.
  destruct (decide _) as [Ha|Ha]; [|discriminate Hadm]. cbn [snd].
  set (a := Z.min (rate.tokens lim + (t - Z.min t (rate.last lim)) * R)
                  rate.second) in *.
  assert (Hsec : (a <= rate.second)%Z) by (unfold a; lia).
  set (lim1 := rate.mkLimiter R 1 (a - rate.second) t).
  assert (Hrefused : Forall (fun m => rate.Allow lim1 m = (false, lim1)) mid).
  { eapply Forall_impl; [exact Hmid|]. intros m [Htm Hm]. cbn beta in *.
    pose proof (Allow_burst_one lim1 m) as HA1. cbn zeta in HA1.
    cbn [lim1 rate.limit rate.burst rate.last rate.tokens] in HA1.
    rewrite (HA1 HR eq_refl). rewrite decide_False; [reflexivity|].
    rewrite (Z.min_r m t) by lia. unfold rate.second in *. nia. }
  split; [exact Hrefused|].
  rewrite (gate_after_refused lim1 mid Hrefused). split; [reflexivity|].
  pose proof (Allow_burst_one lim1 t') as HA'. cbn zeta in HA'.
  cbn [lim1 rate.limit rate.burst rate.last rate.tokens] in HA'.
  rewrite (HA' HR eq_refl).
  rewrite decide_True; [reflexivity|].
  assert (t <= t')%Z by (unfold rate.second in *; nia).
  rewrite (Z.min_r t' t) by lia. unfold rate.second in *. lia.
Qed.

Lemma gate_refills_witness :
  let n := mkNode "a" (mkDB "dsn_a" false 0 0) (rate.NewLimiter 0 0) in
  let lim := limiter (setLimit 3 n) in
  let lim1 := (rate.Allow lim 5).2 in
  let mid := [5; 100000000; 333333336]%Z in
  (rate.Allow lim 5).1 = true /\
  Forall (fun m => (5 <= m)%Z /\ ((m - 5 + 2) * 3 <= rate.second)%Z) mid /\
  (rate.second <= (333333340 - 5 - 1) * 3)%Z /\
  Forall (fun m => rate.Allow lim1 m = (false, lim1)) mid /\
  gate_after lim1 mid = lim1 /\
  (rate.Allow (gate_after lim1 mid) 333333340).1 = true.
Proof.
  intros n lim lim1 mid.
  assert (Hmid : Forall (fun m => (5 <= m)%Z
                                  /\ ((m - 5 + 2) * 3 <= rate.second)%Z) mid).
  { unfold mid, rate.second. repeat constructor; lia. }
  assert (Hwait : (rate.second <= (333333340 - 5 - 1) * 3)%Z)
    by (unfold rate.second; lia).
  refine (conj eq_refl (conj Hmid (conj Hwait _))).
  apply (gate_refills 3 n lim mid 5 333333340);
    [lia|reflexivity|reflexivity|reflexivity|exact Hmid|exact Hwait].
Defined.

(** ** Invariants of the reachable states *)

Section invariants.
Variable sql : driver.

Lemma node_Allow_frame {B} (g : Node -> B) now n h :
  (forall node lim,
     g {| name := name node; db := db node; limiter := lim |} = g node) ->
  g <$> (node_Allow now n h).2 = g <$> h.
Proof.
  intros Hg. unfold node_Allow. destruct (h !! n) as [node|] eqn:Hn; [|done].
  destruct (rate.Allow (limiter node) now) as [ok lim]. cbn [snd].
  rewrite list_fmap_insert, Hg. apply list_insert_id.
  by rewrite list_lookup_fmap, Hn.
Qed.

Lemma frame_lookup {B} (g : Node -> B) (h h' : list Node) l node' :
  g <$> h' = g <$> h -> h' !! l = Some node' ->
  exists node, h !! l = Some node /\ g node = g node'.
Proof.
  intros Hg Hl.
  assert ((g <$> h) !! l = Some (g node')) as H.
  { by rewrite <- Hg, list_lookup_fmap, Hl. }
  rewrite list_lookup_fmap in H. destruct (h !! l) as [node|]; [|done].
  exists node. split; [done|]. by injection H.
Qed.

Lemma selector_step_cluster now s :
  let c' := cluster (selector_step now s).2 in
  nodes c' = nodes (cluster s) /\ nodeLen c' = nodeLen (cluster s) /\
  limitRPS c' = limitRPS (cluster s) /\
  maxIdleConn c' = maxIdleConn (cluster s) /\
  maxOpenConn c' = maxOpenConn (cluster s).
Proof.
  unfold selector_step. destruct (selector s) as [[|[k n] todo]|n todo|n todo].
  - done.
  - by destruct (node_Allow now n (heap s)).
  - by destruct (idleNode (cluster s)).
  - by destruct (idleNode (cluster s)).
Qed.

Lemma selector_step_frame {B} (g : Node -> B) now s :
  (forall node lim,
     g {| name := name node; db := db node; limiter := lim |} = g node) ->
  g <$> heap (selector_step now s).2 = g <$> heap s.
Proof.
  intros Hg. unfold selector_step.
  destruct (selector s) as [[|[k n] todo]|n todo|n todo].
  - done.
  - pose proof (node_Allow_frame g now n (heap s) Hg) as H.
    by destruct (node_Allow now n (heap s)).
  - by destruct (idleNode (cluster s)).
  - by destruct (idleNode (cluster s)).
Qed.

Lemma named_frame s s' :
  nodes (cluster s') = nodes (cluster s) ->
  name <$> heap s' = name <$> heap s ->
  named s -> named s'.
Proof.
  intros Hn Hh Hs k l node' Hk Hl. rewrite Hn in Hk.
  destruct (frame_lookup name _ _ l node' Hh Hl) as (node & Hnode & <-).
  by apply (Hs k l).
Qed.

Lemma named_exec o s : wf s -> named s -> named (exec sql o s).
Proof.
  intros Hwf Hs. destruct o as [r|name dsn|name| | |n|n|now]; cbn [exec].
  - apply (named_frame s); [done| |done]. by apply for_each_node_frame.
  - destruct (AddNode_cases sql name dsn s)
      as [[_ ->]|[(_ & e & _ & ->)|(_ & node & Hnew & ->)]]; [done..|].
    intros k l node' Hk Hl. cbn in Hk, Hl.
    destruct (decide (name = k)) as [Heq|Hne]; [subst k|].
    + rewrite lookup_insert_eq in Hk. injection Hk as <-.
      rewrite list_lookup_middle in Hl by done. injection Hl as <-.
      unfold newNode in Hnew.
      destruct (drv_open sql dsn); cbn in Hnew; [discriminate|].
      destruct (drv_ping sql dsn); cbn in Hnew; [discriminate|].
      by injection Hnew as <-.
    + rewrite lookup_insert_ne in Hk by done.
      rewrite lookup_app_l in Hl by (by eapply Hwf). by apply (Hs k l).
  - unfold RemoveNode. destruct (nodeExists name s); [|done].
    intros k l node' Hk Hl. cbn in Hk, Hl.
    apply lookup_delete_Some in Hk as [_ Hk]. by apply (Hs k l).
  - unfold Cluster_Node. by destruct (idleNode (cluster s)), (selector s).
  - rewrite Close_state. apply (named_frame s); [done| |done].
    by apply for_each_node_frame.
  - apply (named_frame s); [done| |done]. by apply for_each_node_frame.
  - apply (named_frame s); [done| |done]. by apply for_each_node_frame.
  - apply (named_frame s); [|by apply selector_step_frame|done].
    apply selector_step_cluster.
Qed.

Lemma allocated_exec o s : allocated s -> allocated (exec sql o s).
Proof.
  intros (Hwf & Hbuf & Hsel). split; [by apply wf_exec|].
  destruct o as [r|name dsn|name| | |n|n|now]; cbn [exec].
  - cbn. rewrite for_each_node_length. done.
  - destruct (AddNode_cases sql name dsn s)
      as [[_ ->]|[(_ & e & _ & ->)|(_ & node & Hnew & ->)]]; [done..|].
    cbn. rewrite length_app. cbn.
    split; intros m Hm; [apply Hbuf in Hm|apply Hsel in Hm]; lia.
  - unfold RemoveNode. by destruct (nodeExists name s).
  - unfold Cluster_Node. destruct (idleNode (cluster s)) as [b|] eqn:Hb.
    + destruct (selector s) as [todo|m todo|m todo] eqn:Hg; cbn.
      * rewrite Hg. split; [done|exact Hsel].
      * rewrite Hg. split; [done|exact Hsel].
      * split.
        -- intros m' [= <-]. apply Hsel. by left.
        -- intros m' Hm'. apply Hsel. by right.
    + cbn. split; [|exact Hsel]. rewrite Hb. exact Hbuf.
  - rewrite Close_state. cbn. by rewrite for_each_node_length.
  - cbn. by rewrite for_each_node_length.
  - cbn. by rewrite for_each_node_length.
  - rewrite selector_step_length. unfold selector_step.
    destruct (selector s) as [[|[k m] todo]|m todo|m todo] eqn:Hg.
    + cbn. split; [done|]. intros m Hm.
      apply list_elem_of_fmap in Hm as ([k l] & -> & Hin).
      apply elem_of_map_to_list in Hin. by apply Hwf in Hin.
    + destruct (node_Allow now m (heap s)) as [ok h]. cbn.
      split; [done|]. intros m' Hm'. apply Hsel. cbn.
      destruct ok; cbn in Hm'; [done|by right].
    + destruct (idleNode (cluster s)) as [b|] eqn:Hb; cbn.
      * rewrite Hb. split; [done|]. intros m' Hm'. by apply Hsel.
      * split.
        -- intros m' [= <-]. apply Hsel. by left.
        -- intros m' Hm'. apply Hsel. by right.
    + destruct (idleNode (cluster s)) as [b|] eqn:Hb; cbn.
      * rewrite Hb, Hg. done.
      * split.
        -- intros m' [= <-]. apply Hsel. by left.
        -- intros m' Hm'. apply Hsel. by right.
Qed.

Lemma allocated_reachable s : reachable sql s -> allocated s.
Proof.
  intros (r & os & ->).
  assert (allocated (NewCluster r)) as H0.
  { split; [|split]; cbn.
    - intros k l. cbn. rewrite lookup_empty. discriminate.
    - discriminate.
    - intros n Hn. by apply elem_of_nil in Hn. }
  revert H0. generalize (NewCluster r).
  induction os as [|o os IH]; intros s Hs; [done|].
  apply IH, allocated_exec, Hs.
Qed.

Lemma named_reachable s : reachable sql s -> named s.
Proof.
  intros (r & os & ->).
  assert (wf (NewCluster r) /\ named (NewCluster r)) as H0.
  { split; intros k l; cbn; rewrite lookup_empty; discriminate. }
  revert H0. generalize (NewCluster r).
  induction os as [|o os IH]; intros s [Hwf Hs]; [done|].
  apply IH. split; [by apply wf_exec|by apply named_exec].
Qed.
End invariants.

(** X16.  In every state the program reaches without overlapping calls, a
    registered node carries the name it is registered under, the name that
    the query log prints; so no node is registered under two names. *)
Theorem registry_names (sql : driver) (s : State) :
  reachable sql s ->
  (forall k l,
     nodes (cluster s) !! k = Some l ->
     exists node, heap s !! l = Some node /\ name node = k) /\
  (forall k1 k2 l,
     nodes (cluster s) !! k1 = Some l -> nodes (cluster s) !! k2 = Some l ->
     k1 = k2).
Proof.
  intros Hreach. pose proof (named_reachable sql s Hreach) as Hn.
  pose proof (wf_reachable sql s Hreach) as Hwf.
  assert (forall k l, nodes (cluster s) !! k = Some l ->
            exists node, heap s !! l = Some node /\ name node = k) as H.
  { intros k l Hk. destruct (lookup_lt_is_Some_2 (heap s) l) as [node Hl].
    - by apply (Hwf k).
    - exists node. split; [done|]. by apply (Hn k l). }
  split; [exact H|]. intros k1 k2 l H1 H2.
  destruct (H k1 l H1) as (n1 & Hl1 & <-).
  destruct (H k2 l H2) as (n2 & Hl2 & <-). congruence.
Qed.

Lemma registry_names_witness :
  reachable healthy (one_node 1) /\
  exists node, heap (one_node 1) !! 0 = Some node /\ name node = "a".
Proof.
  assert (H : reachable healthy (one_node 1)).
  { exists 1%Z, [opAddNode "a" "dsn_a"]. reflexivity. }
  split; [exact H|].
  exact (proj1 (registry_names healthy (one_node 1) H) "a" 0 eq_refl).
Defined.

(** ** Admissions and deliveries *)

Section balance.
Lemma in_flight_bound s : in_flight s <= 2.
Proof.
  unfold in_flight. destruct (idleNode (cluster s)), (selector s); cbn; lia.
Qed.

Lemma selector_step_balance now s :
  admissions [evSelector (selector_step now s).1] + in_flight s
  = in_flight (selector_step now s).2.
Proof.
  unfold selector_step, in_flight.
  destruct (selector s) as [[|[k n] todo]|n todo|n todo] eqn:Hg.
  - reflexivity.
  - destruct (node_Allow now n (heap s)) as [[|] h]; cbn; lia.
  - destruct (idleNode (cluster s)) eqn:Hb; cbn; rewrite ?Hb, ?Hg; lia.
  - destruct (idleNode (cluster s)) eqn:Hb; cbn; rewrite ?Hb, ?Hg; lia.
Qed.

Lemma selector_step_buffer now s n :
  idleNode (cluster s) = Some n ->
  idleNode (cluster (selector_step now s).2) = Some n.
Proof.
  intros Hb. unfold selector_step.
  destruct (selector s) as [[|[k m] todo]|m todo|m todo].
  - done.
  - by destruct (node_Allow now m (heap s)).
  - by rewrite Hb.
  - by rewrite Hb.
Qed.

Lemma Cluster_Node_balance s :
  match Cluster_Node s with
  | Some (_, s') => in_flight s = S (in_flight s')
  | None => True
  end.
Proof.
  unfold Cluster_Node, in_flight.
  destruct (idleNode (cluster s)) as [n|] eqn:Hb; [|done].
  destruct (selector s) as [todo|m todo|m todo] eqn:Hg; cbn;
    by rewrite ?Hg.
Qed.

Lemma in_flight_balance tl s :
  admissions (timeline_events tl s).1 + in_flight s
  = deliveries (timeline_events tl s).1 + in_flight (timeline_events tl s).2.
Proof.
  revert s. induction tl as [|[now [|]] tl IH]; intros s; [reflexivity| |].
  - cbn [timeline_events]. pose proof (selector_step_balance now s) as Hb.
    destruct (selector_step now s) as [a s1]. specialize (IH s1).
    destruct (timeline_events tl s1) as [es s2]. cbn [fst snd] in *.
    assert (admissions (evSelector a :: es)
            = admissions [evSelector a] + admissions es) as ->.
    { cbn. by destruct a as [| ? []| |]. }
    cbn [deliveries]. lia.
  - cbn [timeline_events]. pose proof (Cluster_Node_balance s) as Hb.
    destruct (Cluster_Node s) as [[n s1]|].
    + specialize (IH s1). destruct (timeline_events tl s1) as [es s2].
      cbn [fst snd admissions deliveries] in *. lia.
    + specialize (IH s). destruct (timeline_events tl s) as [es s2].
      cbn [fst snd admissions deliveries] in *. lia.
Qed.
End balance.

(** X17.  Every delivery of [Node()] is paid for by an admission of a gate:
    along any time line of selector steps and callers, the admissions plus
    the nodes in flight at the start are the deliveries plus the nodes in
    flight at the end.  At most two admitted nodes are in flight, one in the
    buffer and one at the send, so the selector is never more than two
    admissions ahead of the callers. *)
Theorem handoff_balance (tl : list (Z * who)) (s : State) :
  let r := timeline_events tl s in
  admissions r.1 + in_flight s = deliveries r.1 + in_flight r.2 /\
  deliveries r.1 <= admissions r.1 + in_flight s /\
  admissions r.1 <= deliveries r.1 + 2.
Proof.
  cbn zeta. pose proof (in_flight_balance tl s) as H.
  pose proof (in_flight_bound (timeline_events tl s).2). lia.
Qed.

(** X18.  While no caller receives, the selector admits two nodes at most
    and then stands at the send: it never replaces the node that waits in
    the buffer. *)
Theorem selector_back_pressure (tl : list (Z * who)) (s : State) :
  Forall (fun turn : Z * who => turn.2 = theSelector) tl ->
  let r := timeline_events tl s in
  deliveries r.1 = 0 /\
  admissions r.1 + in_flight s <= 2 /\
  (forall n, idleNode (cluster s) = Some n ->
             idleNode (cluster r.2) = Some n).
Proof.
  intros Hsel. cbn zeta.
  assert (deliveries (timeline_events tl s).1 = 0 /\
          forall n, idleNode (cluster s) = Some n ->
                    idleNode (cluster (timeline_events tl s).2) = Some n)
    as [Hd Hb].
  { revert s. induction Hsel as [|[now w] tl Hw _ IH]; intros s; [done|].
    cbn in Hw. subst w. cbn [timeline_events].
    pose proof (selector_step_buffer now s) as Hb.
    destruct (selector_step now s) as [a s1]. specialize (IH s1).
    destruct (timeline_events tl s1) as [es s2]. cbn [fst snd] in *.
    destruct IH as [IH1 IH2]. split; [done|]. intros n Hn. auto. }
  pose proof (in_flight_balance tl s) as H.
  pose proof (in_flight_bound (timeline_events tl s).2). repeat split; [done|lia|done].
Qed.

Lemma selector_back_pressure_witness :
  let tl := [(0, theSelector); (0, theSelector); (0, theSelector);
             (0, theSelector); (2000000000, theSelector);
             (2000000000, theSelector); (4000000000, theSelector)]%Z in
  Forall (fun turn : Z * who => turn.2 = theSelector) tl /\
  admissions (timeline_events tl (one_node 1)).1 + in_flight (one_node 1) <= 2.
Proof.
  intros tl.
  assert (H : Forall (fun turn : Z * who => turn.2 = theSelector) tl)
    by (repeat constructor).
  exact (conj H (proj1 (proj2 (selector_back_pressure tl (one_node 1) H)))).
Defined.

(** ** Queries *)

Section queries.
Context {Rows Row Args Ctx : Type} (be : backend Rows Row Args Ctx).

Lemma Cluster_Node_allocated s :
  allocated s ->
  match Cluster_Node s with
  | Some (n, s') =>
    idleNode (cluster s) = Some n /\ is_Some (heap s' !! n) /\
    heap s' = heap s /\
    nodes (cluster s') = nodes (cluster s) /\ Len s' = Len s /\
    allocated s' /\
    match selector s with
    | Parked m todo =>
      idleNode (cluster s') = Some m /\ selector s' = Ranging todo
    | _ => idleNode (cluster s') = None /\ selector s' = selector s
    end
  | None => idleNode (cluster s) = None
  end.
Proof.
  intros Ha. pose proof (allocated_exec healthy opNode s Ha) as Ha'.
  destruct Ha as (_ & Hbuf & _). cbn [exec] in Ha'. revert Ha'.
  unfold Cluster_Node.
  destruct (idleNode (cluster s)) as [n|]; [|done].
  assert (is_Some (heap s !! n)) as Hn
    by (apply lookup_lt_is_Some_2; by apply Hbuf).
  destruct (selector s) as [todo|m todo|m todo] eqn:Hg; intros Ha';
    cbn; rewrite ?Hg; done.
Qed.

Lemma close_node_idem sql node :
  close_node sql (close_node sql node) = close_node sql node.
Proof.
  destruct node as [nm [dsn [|] i o] lim]; reflexivity.
Qed.
End queries.

(** X19.  Each of the four query methods waits exactly when the buffer of
    the channel is empty, in every state the program reaches.  A query that
    goes through takes the node out of the buffer and leaves the registry,
    the counter and the store as they were.  When the selector was parked
    at its send, its node takes the place in the buffer and the selector
    goes on, so that a query made right after goes through as well; when
    it was not, the buffer is left empty, the selector is where it was and
    a query made right after waits. *)
Theorem query_takes_one_node {Rows Row Args Ctx : Type}
    (be : backend Rows Row Args Ctx) (sql : driver) (s : State)
    (ctx : Ctx) (q : string) (args : Args) (t0 t1 : Z) :
  reachable sql s ->
  (Query be q args t0 t1 s = None <-> idleNode (cluster s) = None) /\
  (QueryContext be ctx q args t0 t1 s = None <-> idleNode (cluster s) = None) /\
  (QueryRow be q args t0 t1 s = None <-> idleNode (cluster s) = None) /\
  (QueryRowContext be ctx q args t0 t1 s = None
   <-> idleNode (cluster s) = None) /\
  (forall r line s',
     Query be q args t0 t1 s = Some (r, line, s') ->
     heap s' = heap s /\
     nodes (cluster s') = nodes (cluster s) /\ Len s' = Len s /\
     match selector s with
     | Parked m todo =>
       idleNode (cluster s') = Some m /\ selector s' = Ranging todo /\
       Query be q args t0 t1 s' <> None
     | _ =>
       idleNode (cluster s') = None /\ selector s' = selector s /\
       Query be q args t0 t1 s' = None
     end).
Proof.
  intros Hreach. pose proof (allocated_reachable sql s Hreach) as Ha.
  pose proof (Cluster_Node_allocated s Ha) as Hn.
  unfold Query, QueryContext, QueryRow, QueryRowContext.
  destruct (Cluster_Node s) as [[n s1]|].
  - destruct Hn as (Hb & [node Hnode] & Hh & Hnodes & HLen & Ha1 & Hsel).
    rewrite Hnode, Hb. do 4 (split; [done|]).
    intros r line s' [= <- <- <-]. do 3 (split; [done|]).
    pose proof (Cluster_Node_allocated s1 Ha1) as Hn1.
    destruct (selector s) as [todo|m todo|m todo].
    + destruct Hsel as [Hb1 Hs1]. repeat split; try done.
      destruct (Cluster_Node s1) as [[n1 s2]|]; [|done].
      destruct Hn1 as (Hb2 & _). congruence.
    + destruct Hsel as [Hb1 Hs1]. repeat split; try done.
      destruct (Cluster_Node s1) as [[n1 s2]|]; [|done].
      destruct Hn1 as (Hb2 & _). congruence.
    + destruct Hsel as [Hb1 Hs1]. repeat split; try done.
      destruct (Cluster_Node s1) as [[n1 s2]|]; [|congruence].
      destruct Hn1 as (_ & [node1 ->] & _). done.
  - rewrite Hn. repeat split; try done.
Qed.

Lemma query_takes_one_node_witness :
  reachable healthy one_node_spent /\
  reachable healthy one_node_parked /\
  (exists r line s',
     selector one_node_spent = Ranging [] /\
     Query echo "SELECT 1" tt 10 25 one_node_spent = Some (r, line, s') /\
     line = "node: a; q: SELECT 1; t: " /\
     Query echo "SELECT 1" tt 10 25 s' = None) /\
  (exists r line s',
     selector one_node_parked = Parked 0 [] /\
     Query echo "SELECT 1" tt 10 25 one_node_parked = Some (r, line, s') /\
     idleNode (cluster s') = Some 0 /\
     Query echo "SELECT 1" tt 10 25 s' <> None).
Proof.
  assert (H : reachable healthy one_node_spent).
  { exists 1%Z, [opAddNode "a" "dsn_a"; opSelector 0; opSelector 0;
                 opSelector 0]. reflexivity. }
  assert (H' : reachable healthy one_node_parked).
  { exists 1%Z, [opAddNode "a" "dsn_a"; opSelector 0; opSelector 0;
                 opSelector 0; opSelector 0; opSelector 1000000000;
                 opSelector 1000000000]. reflexivity. }
  refine (conj H (conj H' (conj _ _))).
  - destruct (query_takes_one_node echo healthy one_node_spent tt
                "SELECT 1" tt 10 25 H) as (_ & _ & _ & _ & Hone).
    eexists _, _, _. split; [reflexivity|]. split; [reflexivity|].
    split; [reflexivity|].
    exact (proj2 (proj2 (proj2 (proj2 (proj2 (Hone _ _ _ eq_refl)))))).
  - destruct (query_takes_one_node echo healthy one_node_parked tt
                "SELECT 1" tt 10 25 H') as (_ & _ & _ & _ & Hone).
    eexists _, _, _. split; [reflexivity|]. split; [reflexivity|].
    destruct (Hone _ _ _ eq_refl) as (_ & _ & _ & Hb & _ & Hq).
    split; [exact Hb|exact Hq].
Defined.

(** X20.  [Close] does not keep queries away: a registered node that waits
    in the buffer when [Close] is called is still handed to the next query,
    which is sent to the connection that [Close] has closed and is logged
    under the name the node is registered under. *)
Theorem Query_after_Close {Rows Row Args Ctx : Type}
    (be : backend Rows Row Args Ctx) (sql : driver) (s : State)
    (k : string) (n : loc) (q : string) (args : Args) (t0 t1 : Z) :
  reachable sql s ->
  idleNode (cluster s) = Some n ->
  nodes (cluster s) !! k = Some n ->
  exists node s',
    heap s !! n = Some node /\ name node = k /\
    db_closed (db (close_node sql node)) = true /\
    Query be q args t0 t1 (Close sql s).2
    = Some (db_Query be (db (close_node sql node)) q args,
            log_line be node q t0 t1, s').
Proof.
  intros Hreach Hb Hk.
  pose proof (wf_reachable sql s Hreach) as Hwf.
  pose proof (named_reachable sql s Hreach) as Hnamed.
  destruct (lookup_lt_is_Some_2 (heap s) n) as [node Hnode];
    [by apply (Hwf k)|].
  assert (Hin : n ∈ (Range (cluster s)).*2).
  { apply list_elem_of_fmap. exists (k, n). split; [done|].
    by apply elem_of_map_to_list. }
  destruct (selector s) as [todo|m todo|m todo] eqn:Hg;
    exists node; eexists; (split; [done|]);
    (split; [by apply (Hnamed k n)|]);
    (split; [apply close_node_closed|]);
    rewrite Close_state; unfold Query, Cluster_Node;
    cbn [with_heap cluster]; rewrite Hb;
    cbn [with_cluster with_heap heap selector]; rewrite Hg;
    cbn [with_cluster with_heap heap];
    rewrite for_each_node_lookup by apply close_node_idem;
    rewrite decide_True by exact Hin; rewrite Hnode; reflexivity.
Qed.

Lemma Query_after_Close_witness :
  reachable healthy one_node_spent /\
  idleNode (cluster one_node_spent) = Some 0 /\
  nodes (cluster one_node_spent) !! "a" = Some 0 /\
  exists node s',
    heap one_node_spent !! 0 = Some node /\ name node = "a" /\
    db_closed (db (close_node healthy node)) = true /\
    Query echo "SELECT 1" tt 10 25 (Close healthy one_node_spent).2
    = Some (db_Query echo (db (close_node healthy node)) "SELECT 1" tt,
            log_line echo node "SELECT 1" 10 25, s').
Proof.
  assert (H : reachable healthy one_node_spent).
  { exists 1%Z, [opAddNode "a" "dsn_a"; opSelector 0; opSelector 0;
                 opSelector 0]. reflexivity. }
  refine (conj H (conj eq_refl (conj eq_refl _))).
  exact (Query_after_Close echo healthy one_node_spent "a" 0 "SELECT 1" tt
           10 25 H eq_refl eq_refl).
Defined.

(** ** Overlapping calls on different names *)

Section overlap.
Variable sql : driver.

Lemma thread_step_name t s :
  thread_name (thread_step sql t s).1 = thread_name t \/
  thread_name (thread_step sql t s).1 = None.
Proof.
  destruct t as [k d|k d|k nd|k|k|e]; cbn; auto.
  - destruct (nodeExists k s); auto.
  - destruct (newNode sql k d _ _ _); auto.
  - destruct (nodeExists k s); auto.
Qed.

Lemma thread_step_nodes t s k :
  thread_name t <> Some k ->
  nodes (cluster (thread_step sql t s).2) !! k = nodes (cluster s) !! k.
Proof.
  intros Hk. destruct t as [k' d|k' d|k' nd|k'|k'|e]; cbn in *.
  - by destruct (nodeExists k' s).
  - by destruct (newNode sql k' d _ _ _).
  - rewrite lookup_insert_ne; [done|congruence].
  - by destruct (nodeExists k' s).
  - rewrite lookup_delete_ne; [done|congruence].
  - done.
Qed.

Lemma thread_step_ok_self t s :
  thread_ok s t -> thread_ok (thread_step sql t s).2 (thread_step sql t s).1.
Proof.
  intros Hok. destruct t as [k d|k d|k nd|k|k|e]; cbn in *; try done.
  - unfold nodeExists. case_bool_decide as Hex; cbn; [done|].
    destruct (nodes (cluster s) !! k) eqn:E; [|done]. exfalso. eauto.
  - by destruct (newNode sql k d _ _ _).
  - unfold nodeExists. by case_bool_decide.
Qed.

Lemma thread_step_ok_other t t' s :
  (forall k, thread_name t = Some k -> thread_name t' <> Some k) ->
  thread_ok s t' -> thread_ok (thread_step sql t s).2 t'.
Proof.
  intros Hne Hok.
  assert (forall k, thread_name t' = Some k ->
            nodes (cluster (thread_step sql t s).2) !! k
            = nodes (cluster s) !! k) as Hsame.
  { intros k Hk. apply thread_step_nodes. intros Ht. by apply (Hne k). }
  destruct t' as [k d|k d|k nd|k|k|e]; cbn in *; try done;
    by rewrite Hsame.
Qed.

Lemma thread_step_counted t s :
  thread_ok s t -> counted s -> counted (thread_step sql t s).2.
Proof.
  unfold counted, Len. intros Hok Hc.
  destruct t as [k d|k d|k nd|k|k|e]; cbn in *; try done.
  - by destruct (nodeExists k s).
  - by destruct (newNode sql k d _ _ _).
  - rewrite Hc, int_wrap_succ, map_size_insert_None by done. f_equal. lia.
  - by destruct (nodeExists k s).
  - rewrite Hc, int_wrap_pred, map_size_delete_Some by done. f_equal.
    destruct Hok as [l Hl].
    assert (size (nodes (cluster s)) <> 0).
    { apply map_size_non_empty_iff. intros He. rewrite He in Hl.
      by rewrite lookup_empty in Hl. }
    lia.
Qed.

End overlap.

(** X21.  Calls of [AddNode] and [RemoveNode] that work on different names
    may overlap in any way: whatever the schedule, the counter agrees with
    the number of registered names afterwards.  The drift needs two calls on
    the same name. *)
Theorem distinct_names_no_drift (sql : driver) (sched : list nat)
    (ts : list thread) (s : State) :
  counted s -> distinct_names ts ->
  (forall i t, ts !! i = Some t -> thread_ok s t) ->
  let s' := (run_schedule sql sched ts s).2 in
  Len s' = int_wrap (Z.of_nat (size (nodes (cluster s')))).
Proof.
  intros Hc Hd Hok. cbn zeta. fold (counted (run_schedule sql sched ts s).2).
  revert ts s Hc Hd Hok.
  induction sched as [|i sched IH]; intros ts s Hc Hd Hok; [done|].
  cbn [run_schedule]. destruct (ts !! i) as [t|] eqn:Hi; [|by apply IH].
  pose proof (thread_step_name sql t s) as Hname.
  pose proof (thread_step_ok_self sql t s (Hok i t Hi)) as Hself.
  pose proof (thread_step_counted sql t s (Hok i t Hi) Hc) as Hc'.
  pose proof (fun t' => thread_step_ok_other sql t t' s) as Hother.
  destruct (thread_step sql t s) as [t1 s1]. cbn [fst snd] in *.
  assert (Hlen : i < length ts) by (by eapply lookup_lt_Some).
  apply IH; [done| |].
  - intros a b ta tb k Hab Ha Hb Hka.
    destruct (decide (a = i)) as [->|Hai], (decide (b = i)) as [->|Hbi];
      try done.
    + rewrite list_lookup_insert_eq in Ha by done. injection Ha as <-.
      rewrite list_lookup_insert_ne in Hb by done.
      destruct Hname as [Hn|Hn]; [|congruence].
      apply (Hd i b t tb k); [done..|congruence].
    + rewrite list_lookup_insert_ne in Ha by done.
      rewrite list_lookup_insert_eq in Hb by done. injection Hb as <-.
      destruct Hname as [Hn|Hn]; [|congruence].
      rewrite Hn. by apply (Hd a i ta t k).
    + rewrite list_lookup_insert_ne in Ha, Hb by done.
      by apply (Hd a b ta tb k).
  - intros a ta Ha. destruct (decide (a = i)) as [->|Hai].
    + rewrite list_lookup_insert_eq in Ha by done. by injection Ha as <-.
    + rewrite list_lookup_insert_ne in Ha by done.
      apply Hother; [|by apply (Hok a)].
      intros k Hk. by apply (Hd i a t ta k).
Qed.

Lemma distinct_names_no_drift_witness :
  let ts := [atAddNode "b" "dsn_b"; atRemoveNode "a"; atAddNode "c" "dsn_c"] in
  let s' := (run_schedule healthy [0; 1; 2; 2; 0; 1; 0; 2] ts (one_node 1)).2 in
  counted (one_node 1) /\ distinct_names ts /\
  Len s' = 2%Z /\ size (nodes (cluster s')) = 2.
Proof.
  intros ts s'.
  assert (Hc : counted (one_node 1)) by reflexivity.
  assert (Hd : distinct_names ts).
  { intros [|[|[|i]]] [|[|[|j]]] ti tj k Hij Hi Hj Hk; try done;
      cbn in Hi, Hj; simplify_eq; cbn in Hk |- *; congruence. }
  assert (Hok : forall i t, ts !! i = Some t -> thread_ok (one_node 1) t).
  { intros [|[|[|i]]] t Hi; cbn in Hi; simplify_eq; done. }
  pose proof (distinct_names_no_drift healthy [0; 1; 2; 2; 0; 1; 0; 2]
                ts (one_node 1) Hc Hd Hok) as H.
  refine (conj Hc (conj Hd (conj _ eq_refl))).
  etransitivity; [exact H|]. reflexivity.
Defined.

(** ** What is left untouched *)

(** X22.  In a cluster whose pool sizes were never set, every node is
    created with [SetMaxIdleConns(0)] and [SetMaxOpenConns(0)]: [NewCluster]
    leaves both sizes at 0 and [newNode] always hands them to the
    connection. *)
Theorem fresh_cluster_pool_sizes (sql : driver) (r : Z) (os : list op)
    (name dsn : string) :
  forallb (fun o => negb (is_SetMaxIdleConns o)) os = true ->
  forallb (fun o => negb (is_SetMaxOpenConns o)) os = true ->
  let s := exec_all sql os (NewCluster r) in
  (AddNode sql name dsn s).1 = None ->
  exists l node,
    nodes (cluster (AddNode sql name dsn s).2) !! name = Some l /\
    heap (AddNode sql name dsn s).2 !! l = Some node /\
    db_maxIdle (db node) = 0%Z /\ db_maxOpen (db node) = 0%Z.
Proof.
  intros Hi Ho s Hok.
  destruct (AddNode_pool sql name dsn s Hok) as (l & node & Hl & Hn & HO & HI).
  exists l, node. unfold s in HI, HO.
  rewrite (exec_all_maxIdleConn sql os _ Hi) in HI.
  rewrite (exec_all_maxOpenConn sql os _ Ho) in HI, HO. done.
Qed.

Lemma fresh_cluster_pool_sizes_witness :
  exists l node,
    nodes (cluster (AddNode healthy "b" "dsn_b"
                      (exec_all healthy [opAddNode "a" "dsn_a"; opSetLimitRPS 3]
                         (NewCluster 1))).2) !! "b" = Some l /\
    heap (AddNode healthy "b" "dsn_b"
            (exec_all healthy [opAddNode "a" "dsn_a"; opSetLimitRPS 3]
               (NewCluster 1))).2 !! l = Some node /\
    db_maxIdle (db node) = 0%Z /\ db_maxOpen (db node) = 0%Z.
Proof.
  exact (fresh_cluster_pool_sizes healthy 1
           [opAddNode "a" "dsn_a"; opSetLimitRPS 3] "b" "dsn_b"
           eq_refl eq_refl eq_refl).
Defined.

(** X23.  The selector touches the gates and the buffer only: however long
    it runs, the registry, the counter, the limit, the pool sizes, the
    names and the connections of the nodes are as before, and no node is
    allocated. *)
Theorem selector_touches_gates_only (clock : list Z) (s : State) :
  let s' := (selector_run clock s).2 in
  nodes (cluster s') = nodes (cluster s) /\ Len s' = Len s /\
  limitRPS (cluster s') = limitRPS (cluster s) /\
  maxIdleConn (cluster s') = maxIdleConn (cluster s) /\
  maxOpenConn (cluster s') = maxOpenConn (cluster s) /\
  db <$> heap s' = db <$> heap s /\
  name <$> heap s' = name <$> heap s.
Proof.
  cbn zeta. revert s. induction clock as [|now clock IH]; intros s; [done|].
  cbn [selector_run].
  pose proof (selector_step_cluster now s) as (H1 & H2 & H3 & H4 & H5).
  pose proof (selector_step_frame db now s (fun _ _ => eq_refl)) as H6.
  pose proof (selector_step_frame name now s (fun _ _ => eq_refl)) as H7.
  destruct (selector_step now s) as [a s1]. specialize (IH s1).
  destruct (selector_run clock s1) as [tr s2]. cbn [fst snd] in *.
  destruct IH as (I1 & I2 & I3 & I4 & I5 & I6 & I7). unfold Len in *.
  repeat split; congruence.
Qed.

(** X24.  The connection of a removed node is never closed by the cluster:
    [RemoveNode] leaves it open, and a later [Close] does not visit the
    node. *)
Theorem removed_node_never_closed (sql : driver) (s : State)
    (k : string) (l : loc) :
  reachable sql s ->
  nodes (cluster s) !! k = Some l ->
  heap (Close sql (RemoveNode k s)).2 !! l = heap s !! l.
Proof.
  intros Hreach Hk.
  pose proof (wf_reachable sql s Hreach) as Hwf.
  pose proof (named_reachable sql s Hreach) as Hnamed.
  rewrite Close_state. cbn [with_heap heap].
  rewrite for_each_node_lookup by apply close_node_idem.
  pose proof (RemoveNode_frame k s) as (Hdel & Hh).
  rewrite Hh. rewrite decide_False; [done|].
  intros Hin. apply list_elem_of_fmap in Hin as ([k' l'] & Heq & Hin).
  cbn in Heq. subst l'. apply elem_of_map_to_list in Hin.
  rewrite Hdel in Hin. apply lookup_delete_Some in Hin as [Hne Hk'].
  destruct (lookup_lt_is_Some_2 (heap s) l) as [node Hnode];
    [by apply (Hwf k)|].
  pose proof (Hnamed k l node Hk Hnode). pose proof (Hnamed k' l node Hk' Hnode).
  congruence.
Qed.

Lemma removed_node_never_closed_witness :
  reachable healthy (one_node 1) /\
  nodes (cluster (one_node 1)) !! "a" = Some 0 /\
  heap (Close healthy (RemoveNode "a" (one_node 1))).2 !! 0
  = heap (one_node 1) !! 0.
Proof.
  assert (H : reachable healthy (one_node 1)).
  { exists 1%Z, [opAddNode "a" "dsn_a"]. reflexivity. }
  refine (conj H (conj eq_refl _)).
  exact (removed_node_never_closed healthy (one_node 1) "a" 0 H eq_refl).
Defined.
